(** * EllipsoidDecomp: the decomposition orchestrator of DecompUtil

    A shallow embedding of [include/decomp_util/ellipsoid_decomp.h].

    Conventions of the embedding.
    - [decimal_t] (a C++ [double]) is idealised by the real numbers [R];
      rounding is not modelled.  Eigen's fixed-size column vectors [Vecf<Dim>]
      are lists of reals whose length is the dimension.
    - [unsigned int] and [int] are 32-bit; conversions and additions wrap.
    - [std::vector::operator[]] outside the bounds, and dereferencing a null
      [shared_ptr], have no defined behaviour in C++; the embedding returns
      [None] there.
    - a [for] loop threads exactly the variables its body assigns. *)

From Stdlib Require Import Reals Lra Lia ZArith.
From stdpp Require Import base tactics option list numbers.

(** ** Machine integers *)

Module MachineInt.

Definition to_uint (z : Z) : Z := (z mod 2 ^ 32)%Z.

Definition to_int (z : Z) : Z := ((z + 2 ^ 31) mod 2 ^ 32 - 2 ^ 31)%Z.

End MachineInt.
Export MachineInt.

(** ** Loops *)

(** [for_each body idxs s] runs [body] at every index of [idxs] in turn; the
    loop stops with [None] as soon as one iteration has no defined result. *)
Fixpoint for_each {S : Type} (body : nat → S → option S) (idxs : list nat) (s : S)
  : option S :=
  match idxs with
  | [] => Some s
  | i :: rest => s' ← body i s; for_each body rest s'
  end.

(** [for (i = a; i < b; i++)] visits [a, a+1, ..., b-1]. *)
Definition range (a b : nat) : list nat := seq a (b - a).

(** ** The worker partition of [dilate] (lines 151-170) *)

(** [int size_section = std::ceil(n_segments/4)]: the quotient of the two
    unsigned operands is taken first (truncating), so [std::ceil] receives a
    whole number and returns it. *)
Definition size_section (n_segments : Z) : Z := to_int (n_segments / 4).

(** The loop [for (int j = 0; j<4; j++)]: each round hands [(start, end)] to
    a new thread and then advances both. *)
Fixpoint spawn_threads (rounds : nat) (j start end_ size n_segments : Z)
  : list (Z * Z) :=
  match rounds with
  | O => []
  | S r =>
      (start, end_) ::
      spawn_threads r (j + 1)
        (to_int (start + size))
        (if (j =? 4 - 2)%Z then to_int n_segments else to_int (end_ + size))
        size n_segments
  end.

Definition thread_ranges (n_segments : Z) : list (Z * Z) :=
  let size := size_section n_segments in
  spawn_threads 4 0 0 size size n_segments.

(** Indices visited by [threadingFunction(start, end, _)], whose loop is
    [for (unsigned int i = start; i < end; i++)]: both [int] arguments are
    converted to [unsigned int]. *)
Definition thread_indices (r : Z * Z) : list nat :=
  range (Z.to_nat (to_uint r.1)) (Z.to_nat (to_uint r.2)).

(** ** Vectors ([Vecf<Dim>], Eigen) *)

Definition Vecf := list R.

Module Vec.

Definition zero (dim : nat) : Vecf := replicate dim 0%R.

(** [a + b], [a - b], [-a], [c * a], [a / c] *)
Definition add (a b : Vecf) : Vecf := zip_with Rplus a b.
Definition sub (a b : Vecf) : Vecf := zip_with Rminus a b.
Definition neg (a : Vecf) : Vecf := Ropp <$> a.
Definition scale (c : R) (a : Vecf) : Vecf := Rmult c <$> a.
Definition div (a : Vecf) (c : R) : Vecf := (λ x, x / c)%R <$> a.

(** [a.dot(b)] *)
Definition dot (a b : Vecf) : R := foldr Rplus 0%R (zip_with Rmult a b).

Definition squaredNorm (a : Vecf) : R := dot a a.

(** [a.norm()] *)
Definition norm (a : Vecf) : R := sqrt (squaredNorm a).

(** [a.normalized()]: Eigen divides by the norm when the squared norm is
    positive and returns the vector as it is otherwise. *)
Definition normalized (a : Vecf) : Vecf :=
  if Rgt_dec (squaredNorm a) 0 then div a (sqrt (squaredNorm a)) else a.

(** [a(k)], coefficient access *)
Definition coeff (a : Vecf) (k : nat) : R := nth k a 0%R.

End Vec.

(** ** Geometry primitives *)

(** Modelled from the spec: the header declaring [Hyperplane] is missing.  A
    Hyperplane is an anchor point [p_] and a normal [n_], not necessarily of
    unit length, constructed as [Hyperplane(p, n)]. *)
Record Hyperplane := mkHyperplane { p_ : Vecf; n_ : Vecf }.

(** Modelled from the spec: the header declaring [Polyhedron] is missing.  A
    Polyhedron is an ordered collection [vs_] of Hyperplanes. *)
Record Polyhedron := mkPolyhedron { vs_ : list Hyperplane }.

(** Modelled from the spec: [Polyhedron::add], of the missing header, appends
    one Hyperplane. *)
Definition Polyhedron_add (Vs : Polyhedron) (v : Hyperplane) : Polyhedron :=
  mkPolyhedron (vs_ Vs ++ [v]).

(** Modelled from the spec: [Polyhedron::hyperplanes], of the missing header,
    reads the collection. *)
Definition hyperplanes (Vs : Polyhedron) : list Hyperplane := vs_ Vs.

(** The template parameter [Dim]; [add_global_bbox] exists for 2 and 3 only. *)
Inductive dimension := Dim2 | Dim3.

Definition dim_nat (D : dimension) : nat :=
  match D with Dim2 => 2 | Dim3 => 3 end.

(** The per-segment fitting collaborator [LineSegment<Dim>] and the
    [Ellipsoid<Dim>] it produces, as [dilate] uses them. *)
Class LineSegmentOps := {
  LineSegment : Type;
  Ellipsoid : Type;
  Ellipsoid_default : Ellipsoid;
  LineSegment_new : Vecf → Vecf → LineSegment;
  set_local_bbox_line : Vecf → LineSegment → LineSegment;
  set_obs_store : list Vecf → LineSegment → LineSegment;
  set_obs_line : LineSegment → LineSegment;
  dilate_line : R → LineSegment → LineSegment;
  get_ellipsoid : LineSegment → Ellipsoid;
  get_polyhedron : LineSegment → Polyhedron
}.

(** The [LinearConstraint<Dim>] constructors, called with two arguments by
    [get_constraints] and with three by [set_constraints]. *)
Class LinearConstraintOps := {
  LinearConstraint : Type;
  LinearConstraint_default : LinearConstraint;
  LinearConstraint_new : Vecf → list Hyperplane → LinearConstraint;
  LinearConstraint_new_dist : Vecf → list Hyperplane → R → LinearConstraint
}.

(** ** The orchestrator *)

Section Orchestrator.

Context `{LS : LineSegmentOps} `{LC : LinearConstraintOps}.

(** The data members of [EllipsoidDecomp<Dim>].  An entry of [lines_] is a
    [shared_ptr], [None] when null. *)
Record EllipsoidDecomp := mkEllipsoidDecomp {
  path_ : list Vecf;
  is_path_circle_only_ : bool;
  obs_ : list Vecf;
  ellipsoids_ : list Ellipsoid;
  polyhedrons_ : list Polyhedron;
  lines_ : list (option LineSegment);
  local_bbox_ : Vecf;
  global_bbox_min_ : Vecf;
  global_bbox_max_ : Vecf
}.

(** The orchestrator with [polyhedrons_] replaced. *)
Definition with_polyhedrons (ps : list Polyhedron) (d : EllipsoidDecomp)
  : EllipsoidDecomp :=
  mkEllipsoidDecomp (path_ d) (is_path_circle_only_ d) (obs_ d) (ellipsoids_ d)
    ps (lines_ d) (local_bbox_ d) (global_bbox_min_ d) (global_bbox_max_ d).

(** [EllipsoidDecomp(origin, dim)], lines 28-31.  The flag
    [is_path_circle_only_] has no initialiser; [dilate] assigns it before any
    read, the embedding starts it at [false]. *)
Definition EllipsoidDecomp_new (D : dimension) (origin dim : Vecf)
  : EllipsoidDecomp :=
  mkEllipsoidDecomp [] false [] [] [] []
    (Vec.zero (dim_nat D)) origin (Vec.add origin dim).

(** [EllipsoidDecomp()], line 22 *)
Definition EllipsoidDecomp_simple (D : dimension) : EllipsoidDecomp :=
  mkEllipsoidDecomp [] false [] [] [] []
    (Vec.zero (dim_nat D)) (Vec.zero (dim_nat D)) (Vec.zero (dim_nat D)).

(** [set_obs], line 34 *)
Definition set_obs (obs : list Vecf) (d : EllipsoidDecomp) : EllipsoidDecomp :=
  mkEllipsoidDecomp (path_ d) (is_path_circle_only_ d) obs (ellipsoids_ d)
    (polyhedrons_ d) (lines_ d) (local_bbox_ d) (global_bbox_min_ d)
    (global_bbox_max_ d).

(** [set_local_bbox], line 37 *)
Definition set_local_bbox (bbox : Vecf) (d : EllipsoidDecomp) : EllipsoidDecomp :=
  mkEllipsoidDecomp (path_ d) (is_path_circle_only_ d) (obs_ d) (ellipsoids_ d)
    (polyhedrons_ d) (lines_ d) bbox (global_bbox_min_ d) (global_bbox_max_ d).

(** *** Tightening (lines 46-62) *)

(** The quantity the loop tests, [n.dot(pt_inside) - c] with [c] the product
    of the anchor and the stored normal. *)
Definition side (pt_inside : Vecf) (v : Hyperplane) : R :=
  (Vec.dot (n_ v) pt_inside - Vec.dot (p_ v) (n_ v))%R.

(** The local [n] of one round of the loop: the stored normal, negated when
    [n.dot(pt_inside) - c > 0], then normalized. *)
Definition tighten_normal (pt_inside : Vecf) (v : Hyperplane) : Vecf :=
  let n := n_ v in
  let c := Vec.dot (p_ v) n in
  let n := if Rgt_dec (Vec.dot n pt_inside - c) 0 then Vec.neg n else n in
  Vec.normalized n.

(** The face after its round: the anchor has moved by the distance against
    the local [n], the stored normal is the one it was. *)
Definition tighten_hyperplane (pt_inside : Vecf) (distance : R) (v : Hyperplane)
  : Hyperplane :=
  let n := tighten_normal pt_inside v in
  mkHyperplane (Vec.sub (p_ v) (Vec.scale distance n)) (n_ v).

(** Round [j] of the loop of [tighten_polyhedron]: the only assignment is to
    [polyhedrons_[i].vs_[j].p_]. *)
Definition tighten_face (i : nat) (pt_inside : Vecf) (distance : R) (j : nat)
  (ps : list Polyhedron) : option (list Polyhedron) :=
  Vs ← ps !! i;
  v ← vs_ Vs !! j;
  let v' := tighten_hyperplane pt_inside distance v in
  Some (<[i := mkPolyhedron (<[j := v']> (vs_ Vs))]> ps).

(** The loop of [tighten_polyhedron] on the member [polyhedrons_]; its bound
    is [polyhedrons_[i].vs_.size()]. *)
Definition tighten_polyhedrons (i : nat) (pt_inside : Vecf) (distance : R)
  (ps : list Polyhedron) : option (list Polyhedron) :=
  Vs ← ps !! i;
  for_each (tighten_face i pt_inside distance) (range 0 (length (vs_ Vs))) ps.

(** [tighten_polyhedron(i, pt_inside, distance)] *)
Definition tighten_polyhedron (i : nat) (pt_inside : Vecf) (distance : R)
  (d : EllipsoidDecomp) : option EllipsoidDecomp :=
  ps ← tighten_polyhedrons i pt_inside distance (polyhedrons_ d);
  Some (with_polyhedrons ps d).

(** *** Constraint extraction (lines 70-95 and 107-115) *)

(** [(a + b)/2] *)
Definition midpoint (a b : Vecf) : Vecf := Vec.div (Vec.add a b) 2.

(** The step of the path cursor: [idx_path++], once more when the path is
    circle-only. *)
Definition stride (is_path_circle_only : bool) : nat :=
  if is_path_circle_only then 2 else 1.

(** One round of the loop of [set_constraints]; the loop assigns
    [poly_constraints], [polyhedrons_] and [idx_path]. *)
Definition set_constraints_round (path : list Vecf) (circle : bool) (distance : R)
  (i : nat) (s : list LinearConstraint * list Polyhedron * nat)
  : option (list LinearConstraint * list Polyhedron * nat) :=
  let '(cs, ps, idx_path) := s in
  a ← path !! idx_path;
  b ← path !! (idx_path + 1);
  let pt_inside := midpoint a b in
  Vs ← ps !! i;
  let cs := cs ++ [LinearConstraint_new_dist pt_inside (hyperplanes Vs) distance] in
  ps ← (if Rgt_dec distance 0
        then tighten_polyhedrons i pt_inside distance ps
        else Some ps);
  Some (cs, ps, idx_path + stride circle).

(** [set_constraints(poly_constraints, distance)]: the result pairs the new
    content of [poly_constraints] with the orchestrator afterwards. *)
Definition set_constraints (distance : R) (d : EllipsoidDecomp)
  : option (list LinearConstraint * EllipsoidDecomp) :=
  '(cs, ps, _) ←
    for_each (set_constraints_round (path_ d) (is_path_circle_only_ d) distance)
      (range 0 (length (polyhedrons_ d))) ([], polyhedrons_ d, 0);
  Some (cs, with_polyhedrons ps d).

(** One round of the loop of [get_constraints]: the path is read at the
    polyhedron index. *)
Definition get_constraints_round (d : EllipsoidDecomp) (i : nat)
  (cs : list LinearConstraint) : option (list LinearConstraint) :=
  a ← path_ d !! i;
  b ← path_ d !! (i + 1);
  let pt := midpoint a b in
  Vs ← polyhedrons_ d !! i;
  _ ← cs !! i;
  Some (<[i := LinearConstraint_new pt (hyperplanes Vs)]> cs).

(** [get_constraints()] *)
Definition get_constraints (d : EllipsoidDecomp) : option (list LinearConstraint) :=
  let constraints := resize (length (polyhedrons_ d)) LinearConstraint_default [] in
  for_each (get_constraints_round d) (range 0 (length (polyhedrons_ d))) constraints.

(** [get_path], [get_polyhedrons], [get_ellipsoids] return copies. *)
Definition get_path (d : EllipsoidDecomp) : list Vecf := path_ d.
Definition get_polyhedrons (d : EllipsoidDecomp) : list Polyhedron := polyhedrons_ d.
Definition get_ellipsoids (d : EllipsoidDecomp) : list Ellipsoid := ellipsoids_ d.

(** *** Global bounding box (lines 305-332) *)

Definition add_global_bbox (D : dimension) (bbox_min bbox_max : Vecf)
  (Vs : Polyhedron) : Polyhedron :=
  match D with
  | Dim2 =>
      (* X *)
      let Vs := Polyhedron_add Vs
        (mkHyperplane [Vec.coeff bbox_max 0; 0] [1; 0])%R in
      let Vs := Polyhedron_add Vs
        (mkHyperplane [Vec.coeff bbox_min 0; 0] [-1; 0])%R in
      (* Y *)
      let Vs := Polyhedron_add Vs
        (mkHyperplane [0; Vec.coeff bbox_max 1] [0; 1])%R in
      Polyhedron_add Vs
        (mkHyperplane [0; Vec.coeff bbox_min 1] [0; -1])%R
  | Dim3 =>
      (* Z *)
      let Vs := Polyhedron_add Vs
        (mkHyperplane [0; 0; Vec.coeff bbox_max 2] [0; 0; 1])%R in
      let Vs := Polyhedron_add Vs
        (mkHyperplane [0; 0; Vec.coeff bbox_min 2] [0; 0; -1])%R in
      (* X *)
      let Vs := Polyhedron_add Vs
        (mkHyperplane [Vec.coeff bbox_max 0; 0; 0] [1; 0; 0])%R in
      let Vs := Polyhedron_add Vs
        (mkHyperplane [Vec.coeff bbox_min 0; 0; 0] [-1; 0; 0])%R in
      (* Y *)
      let Vs := Polyhedron_add Vs
        (mkHyperplane [0; Vec.coeff bbox_max 1; 0] [0; 1; 0])%R in
      Polyhedron_add Vs
        (mkHyperplane [0; Vec.coeff bbox_max 1; 0] [0; -1; 0])%R
  end.

(** [global_bbox_min_.norm() != 0 || global_bbox_max_.norm() != 0] *)
Definition global_bbox_set (bbox_min bbox_max : Vecf) : bool :=
  (if Req_dec_T (Vec.norm bbox_min) 0 then false else true)
  || (if Req_dec_T (Vec.norm bbox_max) 0 then false else true).

(** *** Decomposition (lines 123-234) *)

(** One round of the loop of lines 137-145; it assigns [lines_[i]] and
    [idx_path]. *)
Definition create_line (path : list Vecf) (circle : bool) (local_bbox : Vecf)
  (obs : list Vecf) (i : nat) (s : list (option LineSegment) * nat)
  : option (list (option LineSegment) * nat) :=
  let '(lines, idx_path) := s in
  a ← path !! idx_path;
  b ← path !! (idx_path + 1);
  _ ← lines !! i;
  let l := LineSegment_new a b in
  let l := set_local_bbox_line local_bbox l in
  let l := set_obs_store obs l in
  Some (<[i := Some l]> lines, idx_path + stride circle).

(** One round of the loop of [threadingFunction]. *)
Definition dilate_one (offset_x : R) (i : nat) (lines : list (option LineSegment))
  : option (list (option LineSegment)) :=
  p ← lines !! i;
  l ← p;
  Some (<[i := Some (dilate_line offset_x (set_obs_line l))]> lines).

(** [threadingFunction(start, end, offset_x)], lines 217-234 *)
Definition threadingFunction (start end_ : Z) (offset_x : R)
  (lines : list (option LineSegment)) : option (list (option LineSegment)) :=
  for_each (dilate_one offset_x) (thread_indices (start, end_)) lines.

(** The four workers touch disjoint entries of [lines_] and are joined before
    [dilate] goes on; the embedding runs them one after the other in the
    order they were created. *)
Fixpoint run_threads (offset_x : R) (rs : list (Z * Z))
  (lines : list (option LineSegment)) : option (list (option LineSegment)) :=
  match rs with
  | [] => Some lines
  | r :: rest =>
      lines' ← threadingFunction r.1 r.2 offset_x lines;
      run_threads offset_x rest lines'
  end.

(** One round of the loop of lines 180-183. *)
Definition collect_one (lines : list (option LineSegment)) (i : nat)
  (s : list Ellipsoid * list Polyhedron) : option (list Ellipsoid * list Polyhedron) :=
  let '(es, ps) := s in
  p ← lines !! i;
  l ← p;
  _ ← es !! i;
  _ ← ps !! i;
  Some (<[i := get_ellipsoid l]> es, <[i := get_polyhedron l]> ps).

(** [n_segments] of lines 126-128, from [path.size()]. *)
Definition n_segments_of (path_size : nat) (circle : bool) : Z :=
  let n_path := to_uint (Z.of_nat path_size) in
  let n_segments := to_uint (n_path - 1) in
  if circle then (n_path / 2)%Z else n_segments.

(** [dilate(path, offset_x, is_path_circle_only)], the branch compiled under
    [THREADING_TEST]: resize the three members, create the lines, run the
    workers, collect their ellipsoids and polyhedrons, store the path, add
    the global bounding box when it is set. *)
Definition dilate (D : dimension) (path : list Vecf) (offset_x : R)
  (is_path_circle_only : bool) (d : EllipsoidDecomp) : option EllipsoidDecomp :=
  let n_segments := n_segments_of (length path) is_path_circle_only in
  let n := Z.to_nat n_segments in
  let lines := resize n None (lines_ d) in
  let ellipsoids := resize n Ellipsoid_default (ellipsoids_ d) in
  let polyhedrons := resize n (mkPolyhedron []) (polyhedrons_ d) in
  '(lines, _) ←
    for_each (create_line path is_path_circle_only (local_bbox_ d) (obs_ d))
      (range 0 n) (lines, 0);
  lines ← run_threads offset_x (thread_ranges n_segments) lines;
  '(ellipsoids, polyhedrons) ←
    for_each (collect_one lines) (range 0 n) (ellipsoids, polyhedrons);
  let polyhedrons :=
    if global_bbox_set (global_bbox_min_ d) (global_bbox_max_ d)
    then add_global_bbox D (global_bbox_min_ d) (global_bbox_max_ d) <$> polyhedrons
    else polyhedrons in
  Some (mkEllipsoidDecomp path is_path_circle_only (obs_ d) ellipsoids polyhedrons
          lines (local_bbox_ d) (global_bbox_min_ d) (global_bbox_max_ d)).

End Orchestrator.

(** ** Vocabulary of the statements *)

Section Vocabulary.

Context `{LS : LineSegmentOps} `{LC : LinearConstraintOps}.

(** The midpoint of the path elements at cursor positions [stride * i] and
    [stride * i + 1], the two ends of segment [i]. *)
Definition segment_midpoint (path : list Vecf) (circle : bool) (i : nat) : Vecf :=
  midpoint (path !!! (stride circle * i)) (path !!! (stride circle * i + 1)).

(** Every polyhedron has its two path elements. *)
Definition path_covers (d : EllipsoidDecomp) : Prop :=
  ∀ i, i < length (polyhedrons_ d) →
       stride (is_path_circle_only_ d) * i + 1 < length (path_ d).

(** All faces of one polyhedron tightened. *)
Definition tighten_faces (pt_inside : Vecf) (distance : R) (Vs : Polyhedron)
  : Polyhedron :=
  mkPolyhedron (tighten_hyperplane pt_inside distance <$> vs_ Vs).

(** What a round of [set_constraints] leaves of polyhedron [i]. *)
Definition tightened (path : list Vecf) (circle : bool) (distance : R) (i : nat)
  (Vs : Polyhedron) : Polyhedron :=
  if Rgt_dec distance 0%R
  then tighten_faces (segment_midpoint path circle i) distance Vs
  else Vs.

(** The line [dilate] creates for the segment from [a] to [b], before and
    after its worker has visited it. *)
Definition prepared_line (local_bbox : Vecf) (obs : list Vecf) (a b : Vecf)
  : LineSegment :=
  set_obs_store obs (set_local_bbox_line local_bbox (LineSegment_new a b)).

Definition fitted_line (d : EllipsoidDecomp) (offset_x : R) (a b : Vecf)
  : LineSegment :=
  dilate_line offset_x (set_obs_line (prepared_line (local_bbox_ d) (obs_ d) a b)).

(** Segment [i] of a path: its two ends. *)
Definition segment_ends (path : list Vecf) (circle : bool) (i : nat) : Vecf * Vecf :=
  (path !!! (stride circle * i), path !!! (stride circle * i + 1)).

(** The lines [dilate] has fitted when it returns. *)
Definition fitted_lines (d : EllipsoidDecomp) (path : list Vecf) (offset_x : R)
  (circle : bool) : list LineSegment :=
  (λ k, uncurry (fitted_line d offset_x) (segment_ends path circle k))
  <$> seq 0 (Z.to_nat (n_segments_of (length path) circle)).

(** The polyhedron [dilate] stores for a fitted polyhedron. *)
Definition boxed (D : dimension) (d : EllipsoidDecomp) (Vs : Polyhedron) : Polyhedron :=
  if global_bbox_set (global_bbox_min_ d) (global_bbox_max_ d)
  then add_global_bbox D (global_bbox_min_ d) (global_bbox_max_ d) Vs
  else Vs.

(** The stored normals of all faces of all polyhedrons. *)
Definition stored_normals (ps : list Polyhedron) : list (list Vecf) :=
  (λ Vs, n_ <$> vs_ Vs) <$> ps.

(** Face [j] of polyhedron [i]. *)
Definition face_at (ps : list Polyhedron) (i j : nat) : option Hyperplane :=
  Vs ← ps !! i; vs_ Vs !! j.

End Vocabulary.

(** ** A small collaborator for the examples *)

(** A stand-in for the fitting collaborator: a line keeps what it was given;
    once dilated its ellipsoid is the pair of centre and offset and its
    polyhedron is the slab between its two ends, with outward normals. *)
Module Slab.

Record line := mkLine {
  p1 : Vecf;
  p2 : Vecf;
  local_bbox : Vecf;
  obs_store : list Vecf;
  obs_bound : bool;
  dilated : option R
}.

Definition faces (l : line) : list Hyperplane :=
  match dilated l with
  | None => []
  | Some _ =>
      [mkHyperplane (p1 l) (Vec.sub (p1 l) (p2 l));
       mkHyperplane (p2 l) (Vec.sub (p2 l) (p1 l))]
  end.

#[export] Instance fitter : LineSegmentOps := {|
  LineSegment := line;
  Ellipsoid := option (Vecf * R);
  Ellipsoid_default := None;
  LineSegment_new a b := mkLine a b [] [] false None;
  set_local_bbox_line bbox l :=
    mkLine (p1 l) (p2 l) bbox (obs_store l) (obs_bound l) (dilated l);
  set_obs_store obs l :=
    mkLine (p1 l) (p2 l) (local_bbox l) obs (obs_bound l) (dilated l);
  set_obs_line l :=
    mkLine (p1 l) (p2 l) (local_bbox l) (obs_store l) true (dilated l);
  dilate_line offset_x l :=
    mkLine (p1 l) (p2 l) (local_bbox l) (obs_store l) (obs_bound l) (Some offset_x);
  get_ellipsoid l :=
    match dilated l with
    | None => None
    | Some offset_x => Some (Vec.div (Vec.add (p1 l) (p2 l)) 2, offset_x)
    end;
  get_polyhedron l := mkPolyhedron (faces l)
|}.

(** A constraint that records the arguments of its constructor. *)
Record constraint := mkConstraint {
  interior : Vecf;
  planes : list Hyperplane;
  clearance : option R
}.

#[export] Instance recorder : LinearConstraintOps := {|
  LinearConstraint := constraint;
  LinearConstraint_default := mkConstraint [] [] None;
  LinearConstraint_new pt vs := mkConstraint pt vs None;
  LinearConstraint_new_dist pt vs distance := mkConstraint pt vs (Some distance)
|}.

(** An orchestrator holding the given polyhedrons over the given path. *)
Definition holding (path : list Vecf) (circle : bool) (ps : list Polyhedron)
  : EllipsoidDecomp :=
  mkEllipsoidDecomp path circle [] [] ps [] [0; 0]%R [0; 0]%R [0; 0]%R.

(** The face [x = 1] of the plane, normal pointing to larger [x]. *)
Definition wall : Hyperplane := mkHyperplane [1; 0]%R [1; 0]%R.

(** The same face with the normal stored the other way round. *)
Definition wall_inward : Hyperplane := mkHyperplane [1; 0]%R [-1; 0]%R.

(** One segment from [(-1, 0)] to [(1, 0)], midpoint the origin, its
    polyhedron the single face [wall], one unit away from the midpoint. *)
Definition corridor : EllipsoidDecomp :=
  holding [[-1; 0]; [1; 0]]%R false [mkPolyhedron [wall]].

Definition corridor_inward : EllipsoidDecomp :=
  holding [[-1; 0]; [1; 0]]%R false [mkPolyhedron [wall_inward]].

(** A path with a corner, and a path of two separate pairs. *)
Definition corner_path : list Vecf := [[0; 0]; [4; 0]; [4; 4]]%R.

Definition pairs_path : list Vecf := [[0; 0]; [2; 0]; [10; 10]; [10; 12]]%R.

(** A three-dimensional orchestrator with the global bounding box from
    [(0, 0, 0)] to [(10, 10, 10)], and a path inside the box. *)
Definition boxed3 : EllipsoidDecomp :=
  EllipsoidDecomp_new Dim3 [0; 0; 0]%R [10; 10; 10]%R.

Definition diagonal_path : list Vecf := [[1; 1; 1]; [2; 2; 2]]%R.

End Slab.

(** ** Further vocabulary *)

Section FurtherVocabulary.

Context `{LS : LineSegmentOps}.



(** A point passes the test of the loop for every face of a polyhedron: it
    is on the non-positive side of every stored normal. *)
Definition within (x : Vecf) (Vs : Polyhedron) : Prop :=
  Forall (λ v, side x v <= 0)%R (vs_ Vs).

(** Two orchestrators configured alike: same obstacles, same local box, same
    global box. *)
Definition same_setup (d d' : EllipsoidDecomp) : Prop :=
  obs_ d = obs_ d' ∧ local_bbox_ d = local_bbox_ d'
  ∧ global_bbox_min_ d = global_bbox_min_ d'
  ∧ global_bbox_max_ d = global_bbox_max_ d'.

End FurtherVocabulary.

(** * Properties *)

(** ** Machine integers and loops *)

Lemma to_uint_small z : (0 ≤ z < 2 ^ 32)%Z → to_uint z = z.
Proof. intros H. unfold to_uint. by apply Z.mod_small. Qed.

Lemma to_int_small z : (- 2 ^ 31 ≤ z < 2 ^ 31)%Z → to_int z = z.
Proof. intros H. unfold to_int. rewrite Z.mod_small; lia. Qed.

Lemma to_uint_to_int z : to_uint (to_int z) = to_uint z.
Proof.
  unfold to_uint, to_int.
  rewrite Zminus_mod_idemp_l.
  f_equal. lia.
Qed.

Lemma range_app a b c : a ≤ b → b ≤ c → range a b ++ range b c = range a c.
Proof.
  intros Hab Hbc. unfold range.
  replace (c - a) with ((b - a) + (c - b)) by lia.
  rewrite seq_app. do 2 f_equal. lia.
Qed.

Lemma range_nil a : range a a = [].
Proof. unfold range. by rewrite Nat.sub_diag. Qed.

Lemma range_cons a b : a < b → range a b = a :: range (S a) b.
Proof.
  intros H. unfold range.
  replace (b - a) with (S (b - S a)) by lia. done.
Qed.

Lemma for_each_app {S : Type} (body : nat → S → option S) xs ys s :
  for_each body (xs ++ ys) s = s' ← for_each body xs s; for_each body ys s'.
Proof.
  revert s. induction xs as [|x xs IH]; intros s; simpl; [done|].
  destruct (body x s) as [s1|]; simpl; [apply IH|done].
Qed.

(** ** The worker partition *)

Lemma size_section_bounds n :
  (0 ≤ n < 2 ^ 32)%Z →
  size_section n = (n / 4)%Z ∧ (0 ≤ n / 4)%Z ∧ (4 * (n / 4) ≤ n)%Z.
Proof.
  intros Hn. unfold size_section.
  assert (0 ≤ n / 4 ∧ 4 * (n / 4) ≤ n)%Z as [H0 H4].
  { split; [apply Z.div_pos; lia | apply Z.mul_div_le; lia]. }
  split; [apply to_int_small; lia | lia].
Qed.

(** The four ranges handed to the workers, in the order of creation, as
    [threadingFunction] reads them (converted to [unsigned int]). *)
Lemma thread_ranges_blocks n :
  (0 ≤ n < 2 ^ 32)%Z →
  let s := (n / 4)%Z in
  (λ r, (to_uint r.1, to_uint r.2)) <$> thread_ranges n
  = [(0, s); (s, 2 * s); (2 * s, 3 * s); (3 * s, n)]%Z.
Proof.
  intros Hn s. unfold thread_ranges.
  destruct (size_section_bounds n Hn) as (-> & H0 & H4). fold s in H0, H4 |- *.
  simpl.
  clearbody s.
  rewrite (to_int_small (0 + s)), (to_int_small (s + s)) by lia.
  rewrite (to_int_small (0 + s + s)) by lia.
  rewrite !to_uint_to_int.
  rewrite !to_uint_small by lia.
  repeat f_equal; lia.
Qed.

Lemma thread_indices_concat n :
  (0 ≤ n < 2 ^ 32)%Z →
  concat (thread_indices <$> thread_ranges n) = seq 0 (Z.to_nat n).
Proof.
  intros Hn.
  pose proof (thread_ranges_blocks n Hn) as Hb. cbv zeta in Hb.
  destruct (size_section_bounds n Hn) as (_ & H0 & H4).
  set (s := (n / 4)%Z) in *.
  destruct (thread_ranges n) as [|r0 [|r1 [|r2 [|r3 [|]]]]]; try done.
  injection Hb as E01 E02 E11 E12 E21 E22 E31 E32.
  unfold thread_indices. simpl.
  rewrite E01, E02, E11, E12, E21, E22, E31, E32.
  rewrite app_nil_r, !range_app by lia.
  unfold range. f_equal. lia.
Qed.

Lemma thread_ranges_length n : length (thread_ranges n) = 4.
Proof. done. Qed.

(** C7 (partition coverage).  For every 32-bit [n_segments], degenerate
    values included, [dilate] creates four workers; read as
    [threadingFunction] reads them, their ranges are the blocks [0, s),
    [s, 2s), [2s, 3s) and [3s, n_segments), with [s] the truncated quotient
    [n_segments / 4] that [std::ceil] receives.  Read one after the other,
    the indices the four workers visit are 0, 1, ..., n_segments - 1, each
    once: no index is visited by two workers or twice by one, and the
    visited indices are exactly those below [n_segments]. *)
Theorem C7_partition_covers_each_segment_once n_segments :
  (0 ≤ n_segments < 2 ^ 32)%Z →
  length (thread_ranges n_segments) = 4
  ∧ (λ r, (to_uint r.1, to_uint r.2)) <$> thread_ranges n_segments
    = [(0, n_segments / 4); (n_segments / 4, 2 * (n_segments / 4));
       (2 * (n_segments / 4), 3 * (n_segments / 4));
       (3 * (n_segments / 4), n_segments)]%Z
  ∧ concat (thread_indices <$> thread_ranges n_segments)
    = seq 0 (Z.to_nat n_segments)
  ∧ NoDup (concat (thread_indices <$> thread_ranges n_segments))
  ∧ ∀ i : nat,
      i ∈ concat (thread_indices <$> thread_ranges n_segments)
      ↔ (Z.of_nat i < n_segments)%Z.
Proof.
  intros Hn. rewrite thread_indices_concat by done.
  split; [done|]. split; [by apply thread_ranges_blocks|].
  split; [done|]. split; [apply NoDup_seq|].
  intros i. rewrite elem_of_seq. lia.
Qed.

Lemma C7_partition_witness :
  concat (thread_indices <$> thread_ranges 3) = [0; 1; 2]
  ∧ concat (thread_indices <$> thread_ranges 0) = []
  ∧ (thread_indices <$> thread_ranges 9) = [[0; 1]; [2; 3]; [4; 5]; [6; 7; 8]].
Proof.
  split; [|split].
  - apply (C7_partition_covers_each_segment_once 3). lia.
  - apply (C7_partition_covers_each_segment_once 0). lia.
  - reflexivity.
Defined.

(** ** Vector algebra *)

Section VecFacts.

Local Open Scope R_scope.

Lemma dot_nil_l b : Vec.dot [] b = 0.
Proof. done. Qed.

Lemma dot_cons x a y b : Vec.dot (x :: a) (y :: b) = x * y + Vec.dot a b.
Proof. done. Qed.

Lemma dot_comm a b : Vec.dot a b = Vec.dot b a.
Proof.
  revert b. induction a as [|x a IH]; intros [|y b]; try done.
  rewrite !dot_cons, IH. lra.
Qed.

Lemma dot_neg_l a b : Vec.dot (Vec.neg a) b = - Vec.dot a b.
Proof.
  revert b. induction a as [|x a IH]; intros [|y b];
    try (unfold Vec.dot; simpl; lra).
  change (Vec.neg (x :: a)) with (- x :: Vec.neg a).
  rewrite !dot_cons, IH. lra.
Qed.

Lemma dot_neg_r a b : Vec.dot a (Vec.neg b) = - Vec.dot a b.
Proof. by rewrite dot_comm, dot_neg_l, dot_comm. Qed.

Lemma dot_div_l a b c : Vec.dot (Vec.div a c) b = Vec.dot a b / c.
Proof.
  revert b. induction a as [|x a IH]; intros [|y b];
    try (unfold Vec.dot; simpl; lra).
  change (Vec.div (x :: a) c) with (x / c :: Vec.div a c).
  rewrite !dot_cons, IH. lra.
Qed.

Lemma dot_div_r a b c : Vec.dot a (Vec.div b c) = Vec.dot a b / c.
Proof. by rewrite dot_comm, dot_div_l, dot_comm. Qed.

Lemma dot_scale_r a b c : Vec.dot a (Vec.scale c b) = c * Vec.dot a b.
Proof.
  revert b. induction a as [|x a IH]; intros [|y b];
    try (unfold Vec.dot; simpl; lra).
  change (Vec.scale c (y :: b)) with (c * y :: Vec.scale c b).
  rewrite !dot_cons, IH. lra.
Qed.

Lemma dot_sub_r a b c :
  length b = length a → length c = length a →
  Vec.dot a (Vec.sub b c) = Vec.dot a b - Vec.dot a c.
Proof.
  revert b c. induction a as [|x a IH]; intros [|y b] [|z c] Hb Hc;
    try done; try (unfold Vec.dot; simpl; lra).
  change (Vec.sub (y :: b) (z :: c)) with (y - z :: Vec.sub b c).
  rewrite !dot_cons, IH by (simpl in *; lia). lra.
Qed.

Lemma squaredNorm_nonneg a : 0 <= Vec.squaredNorm a.
Proof.
  unfold Vec.squaredNorm. induction a as [|x a IH]; [by rewrite dot_nil_l|].
  rewrite dot_cons. nra.
Qed.

Lemma squaredNorm_neg a : Vec.squaredNorm (Vec.neg a) = Vec.squaredNorm a.
Proof. unfold Vec.squaredNorm. rewrite dot_neg_l, dot_neg_r. lra. Qed.

Lemma norm_nonneg a : 0 <= Vec.norm a.
Proof. apply sqrt_pos. Qed.

Lemma norm_sqr a : Vec.norm a * Vec.norm a = Vec.squaredNorm a.
Proof. apply sqrt_sqrt, squaredNorm_nonneg. Qed.

Lemma norm_pos a : Vec.squaredNorm a > 0 → 0 < Vec.norm a.
Proof. intros H. apply sqrt_lt_R0. lra. Qed.

Lemma norm_neg a : Vec.norm (Vec.neg a) = Vec.norm a.
Proof. unfold Vec.norm. by rewrite squaredNorm_neg. Qed.

Lemma length_neg a : length (Vec.neg a) = length a.
Proof. apply length_fmap. Qed.

Lemma length_scale c a : length (Vec.scale c a) = length a.
Proof. apply length_fmap. Qed.

Lemma length_div a c : length (Vec.div a c) = length a.
Proof. apply length_fmap. Qed.

Lemma length_normalized a : length (Vec.normalized a) = length a.
Proof. unfold Vec.normalized. destruct (Rgt_dec _ _); [apply length_div|done]. Qed.

Lemma length_sub a b : length b = length a → length (Vec.sub a b) = length a.
Proof. intros H. unfold Vec.sub. rewrite length_zip_with. lia. Qed.

(** A vector and its normalization: their product is the norm, also for the
    zero vector, which [normalized] leaves alone. *)
Lemma dot_normalized a : Vec.dot a (Vec.normalized a) = Vec.norm a.
Proof.
  unfold Vec.normalized. destruct (Rgt_dec _ _) as [Hpos|Hz].
  - rewrite dot_div_r. fold (Vec.squaredNorm a). fold (Vec.norm a).
    pose proof (norm_pos a Hpos). pose proof (norm_sqr a).
    apply (Rmult_eq_reg_r (Vec.norm a)); [|lra].
    unfold Rdiv. rewrite Rmult_assoc, Rinv_l by lra. lra.
  - fold (Vec.squaredNorm a). pose proof (squaredNorm_nonneg a).
    assert (Vec.squaredNorm a = 0) as E by lra.
    unfold Vec.norm. rewrite E. by rewrite sqrt_0.
Qed.

(** Normalizing a vector that is not zero gives a unit vector. *)
Lemma normalized_unit a :
  Vec.squaredNorm a > 0 → Vec.squaredNorm (Vec.normalized a) = 1.
Proof.
  intros Hpos. unfold Vec.normalized. destruct (Rgt_dec _ _); [|done].
  unfold Vec.squaredNorm at 1. rewrite dot_div_l, dot_div_r.
  fold (Vec.squaredNorm a). fold (Vec.norm a).
  pose proof (norm_pos a Hpos). rewrite <- (norm_sqr a). field. lra.
Qed.

Lemma sub_sub_scale p c u :
  Vec.sub (Vec.sub p (Vec.scale c u)) (Vec.scale c u) = Vec.sub p (Vec.scale (2 * c) u).
Proof.
  revert u. induction p as [|x p IH]; intros [|y u]; try done.
  change (Vec.scale ?k (y :: u)) with (k * y :: Vec.scale k u).
  change (Vec.sub (?a :: ?l) (?b :: ?k)) with (a - b :: Vec.sub l k).
  change (Vec.sub (?a :: ?l) (?b :: ?k)) with (a - b :: Vec.sub l k).
  rewrite IH. f_equal. lra.
Qed.

End VecFacts.

Section NormalizedFacts.

Local Open Scope R_scope.

Lemma dot_normalized_l a b :
  Vec.dot (Vec.normalized a) b
  = if Rgt_dec (Vec.squaredNorm a) 0 then Vec.dot a b / Vec.norm a else Vec.dot a b.
Proof.
  unfold Vec.normalized. destruct (Rgt_dec _ _); [|done].
  by rewrite dot_div_l.
Qed.

(** Normalizing keeps the sign of every product. *)
Lemma dot_normalized_sign a b c :
  Vec.dot a b - Vec.dot a c <= 0 →
  Vec.dot (Vec.normalized a) b - Vec.dot (Vec.normalized a) c <= 0.
Proof.
  intros H. rewrite !dot_normalized_l. destruct (Rgt_dec _ _) as [Hpos|]; [|done].
  pose proof (norm_pos a Hpos) as Hn.
  replace (Vec.dot a b / Vec.norm a - Vec.dot a c / Vec.norm a)
    with ((Vec.dot a b - Vec.dot a c) * / Vec.norm a) by (field; lra).
  pose proof (Rinv_0_lt_compat _ Hn). nra.
Qed.

Lemma normalized_norm a : Vec.squaredNorm a > 0 → Vec.norm (Vec.normalized a) = 1.
Proof. intros H. unfold Vec.norm. rewrite normalized_unit by done. apply sqrt_1. Qed.

End NormalizedFacts.

(** ** Tightening *)

Section Tighten.

Context `{LS : LineSegmentOps} `{LC : LinearConstraintOps}.

Local Open Scope R_scope.

(** One round of the loop of [tighten_polyhedron], with the faces already
    visited in [seen] and the others in [v :: todo]. *)
Lemma tighten_face_step i pt distance (ps : list Polyhedron) seen v todo :
  (i < length ps)%nat →
  tighten_face i pt distance (length seen)
    (<[i := mkPolyhedron (seen ++ v :: todo)]> ps)
  = Some (<[i := mkPolyhedron ((seen ++ [tighten_hyperplane pt distance v]) ++ todo)]> ps).
Proof.
  intros Hi. unfold tighten_face.
  rewrite list_lookup_insert_eq by done. cbn [mbind option_bind vs_].
  rewrite lookup_app_r, Nat.sub_diag by done. cbn [lookup list_lookup mbind option_bind].
  rewrite list_insert_insert_eq.
  rewrite insert_app_r_alt, Nat.sub_diag by done. cbn [insert list_insert].
  by rewrite <- app_assoc.
Qed.

Lemma tighten_faces_loop i pt distance (ps : list Polyhedron) seen todo :
  (i < length ps)%nat →
  for_each (tighten_face i pt distance) (seq (length seen) (length todo))
    (<[i := mkPolyhedron (seen ++ todo)]> ps)
  = Some (<[i := mkPolyhedron (seen ++ (tighten_hyperplane pt distance <$> todo))]> ps).
Proof.
  intros Hi. revert seen. induction todo as [|v todo IH]; intros seen; [done|].
  cbn [length seq for_each]. rewrite tighten_face_step by done.
  cbn [mbind option_bind].
  replace (S (length seen)) with (length (seen ++ [tighten_hyperplane pt distance v]))
    by (rewrite length_app; simpl; lia).
  rewrite IH, fmap_cons, <- app_assoc. done.
Qed.

Lemma tighten_polyhedrons_Some i pt distance (ps : list Polyhedron) Vs :
  ps !! i = Some Vs →
  tighten_polyhedrons i pt distance ps
  = Some (<[i := mkPolyhedron (tighten_hyperplane pt distance <$> vs_ Vs)]> ps).
Proof.
  intros Hi. unfold tighten_polyhedrons. rewrite Hi. cbn [mbind option_bind].
  pose proof (lookup_lt_Some _ _ _ Hi) as Hlt.
  rewrite <- (list_insert_id ps i Vs) at 1 by done.
  destruct Vs as [faces]. cbn [vs_]. unfold range. rewrite Nat.sub_0_r.
  apply (tighten_faces_loop i pt distance ps [] faces Hlt).
Qed.

Lemma tighten_polyhedrons_None i pt distance (ps : list Polyhedron) :
  ps !! i = None → tighten_polyhedrons i pt distance ps = None.
Proof. intros Hi. unfold tighten_polyhedrons. by rewrite Hi. Qed.

Lemma tighten_normal_cases pt v :
  tighten_normal pt v
  = if Rgt_dec (side pt v) 0 then Vec.normalized (Vec.neg (n_ v))
    else Vec.normalized (n_ v).
Proof. unfold tighten_normal, side. by destruct (Rgt_dec _ _). Qed.

Lemma length_tighten_normal pt v : length (tighten_normal pt v) = length (n_ v).
Proof.
  rewrite tighten_normal_cases.
  destruct (Rgt_dec _ _); by rewrite length_normalized, ?length_neg.
Qed.

(** The stored normal against the local one: plus or minus the norm. *)
Lemma dot_tighten_normal pt v :
  Vec.dot (n_ v) (tighten_normal pt v)
  = if Rgt_dec (side pt v) 0 then - Vec.norm (n_ v) else Vec.norm (n_ v).
Proof.
  rewrite tighten_normal_cases. destruct (Rgt_dec _ _).
  - rewrite <- (norm_neg (n_ v)), <- (dot_normalized (Vec.neg (n_ v))).
    rewrite dot_neg_l. lra.
  - apply dot_normalized.
Qed.

(** The side test after one tightening step, in terms of the one before. *)
Lemma side_tighten pt distance v :
  length (p_ v) = length (n_ v) →
  side pt (tighten_hyperplane pt distance v)
  = if Rgt_dec (side pt v) 0
    then side pt v - distance * Vec.norm (n_ v)
    else side pt v + distance * Vec.norm (n_ v).
Proof.
  intros Hp. unfold side at 1, tighten_hyperplane. cbn [p_ n_].
  rewrite (dot_comm (Vec.sub _ _)), dot_sub_r;
    [|done|by rewrite length_scale, length_tighten_normal].
  rewrite dot_scale_r, dot_tighten_normal. unfold side.
  rewrite (dot_comm (p_ v)). destruct (Rgt_dec _ _); lra.
Qed.

Lemma side_eq pt v : side pt v = Vec.dot (n_ v) pt - Vec.dot (n_ v) (p_ v).
Proof. unfold side. by rewrite (dot_comm (p_ v)). Qed.

Lemma length_tighten_anchor pt distance v :
  length (p_ v) = length (n_ v) →
  length (p_ (tighten_hyperplane pt distance v)) = length (n_ v).
Proof.
  intros Hp. unfold tighten_hyperplane. cbn [p_].
  rewrite length_sub; [done|].
  by rewrite length_scale, length_tighten_normal.
Qed.

Lemma squaredNorm_tighten_normal pt v :
  Vec.squaredNorm (n_ v) > 0 → Vec.squaredNorm (tighten_normal pt v) = 1.
Proof.
  intros Hpos. rewrite tighten_normal_cases.
  destruct (Rgt_dec _ _); apply normalized_unit; by rewrite ?squaredNorm_neg.
Qed.

(** Along the local normal the anchor moves down by the distance. *)
Lemma tighten_anchor_dot pt distance v :
  Vec.squaredNorm (n_ v) > 0 →
  length (p_ v) = length (n_ v) →
  Vec.dot (tighten_normal pt v) (p_ (tighten_hyperplane pt distance v))
  = Vec.dot (tighten_normal pt v) (p_ v) - distance.
Proof.
  intros Hpos Hp. unfold tighten_hyperplane. cbn [p_].
  rewrite dot_sub_r, dot_scale_r
    by (rewrite ?length_scale, length_tighten_normal; congruence).
  fold (Vec.squaredNorm (tighten_normal pt v)).
  rewrite squaredNorm_tighten_normal by done. lra.
Qed.

(** A face with a normal that is not zero never stays where it is. *)
Lemma tighten_anchor_moves pt distance v :
  distance > 0 →
  Vec.squaredNorm (n_ v) > 0 →
  length (p_ v) = length (n_ v) →
  p_ (tighten_hyperplane pt distance v) ≠ p_ v.
Proof.
  intros Hd Hpos Hp E.
  pose proof (tighten_anchor_dot pt distance v Hpos Hp) as H.
  rewrite E in H. lra.
Qed.

(** When the point keeps its side, a second round uses the same local normal. *)
Lemma tighten_normal_stable pt distance v :
  length (p_ v) = length (n_ v) →
  side pt v <= - (distance * Vec.norm (n_ v)) ∨ side pt v > distance * Vec.norm (n_ v) →
  distance > 0 →
  tighten_normal pt (tighten_hyperplane pt distance v) = tighten_normal pt v.
Proof.
  intros Hp Hside Hd. rewrite !tighten_normal_cases, side_tighten by done.
  change (n_ (tighten_hyperplane pt distance v)) with (n_ v).
  pose proof (norm_nonneg (n_ v)) as Hn.
  assert (0 <= distance * Vec.norm (n_ v)) by nra.
  destruct (Rgt_dec (side pt v) 0); destruct (Rgt_dec _ 0); try done; lra.
Qed.

Lemma tighten_twice pt distance v :
  length (p_ v) = length (n_ v) →
  side pt v <= - (distance * Vec.norm (n_ v)) ∨ side pt v > distance * Vec.norm (n_ v) →
  distance > 0 →
  p_ (tighten_hyperplane pt distance (tighten_hyperplane pt distance v))
  = Vec.sub (p_ v) (Vec.scale (2 * distance) (tighten_normal pt v)).
Proof.
  intros Hp Hside Hd. unfold tighten_hyperplane at 1. cbn [p_].
  rewrite tighten_normal_stable by done.
  unfold tighten_hyperplane. cbn [p_]. apply sub_sub_scale.
Qed.

End Tighten.

(** ** Constraint extraction *)

Section SetConstraints.

Context `{LS : LineSegmentOps} `{LC : LinearConstraintOps}.

Local Open Scope R_scope.

Lemma with_polyhedrons_id (d : EllipsoidDecomp) : with_polyhedrons (polyhedrons_ d) d = d.
Proof. by destruct d. Qed.

Lemma stride_pos circle : (1 ≤ stride circle ≤ 2)%nat.
Proof. destruct circle; simpl; lia. Qed.

Lemma set_constraints_round_step path circle distance cs (seen : list Polyhedron) Vs todo :
  (stride circle * length seen + 1 < length path)%nat →
  set_constraints_round path circle distance (length seen)
    (cs, seen ++ Vs :: todo, stride circle * length seen)%nat
  = Some (cs ++ [LinearConstraint_new_dist
                   (segment_midpoint path circle (length seen)) (vs_ Vs) distance],
          (seen ++ [tightened path circle distance (length seen) Vs]) ++ todo,
          stride circle * S (length seen))%nat.
Proof.
  intros Hlen. unfold set_constraints_round.
  rewrite !(list_lookup_lookup_total_lt path) by lia. cbn [mbind option_bind].
  rewrite lookup_app_r, Nat.sub_diag by done. cbn [lookup list_lookup mbind option_bind].
  fold (segment_midpoint path circle (length seen)).
  unfold tightened, hyperplanes. destruct (Rgt_dec distance 0).
  - erewrite tighten_polyhedrons_Some
      by (rewrite lookup_app_r, Nat.sub_diag by done; done).
    cbn [mbind option_bind].
    rewrite insert_app_r_alt, Nat.sub_diag by done. cbn [insert list_insert].
    rewrite <- app_assoc. repeat f_equal. lia.
  - cbn [mbind option_bind]. rewrite <- app_assoc. repeat f_equal. lia.
Qed.

Lemma set_constraints_loop path circle distance cs (seen todo : list Polyhedron) :
  (∀ k, k < length todo → stride circle * (length seen + k) + 1 < length path)%nat →
  for_each (set_constraints_round path circle distance)
    (seq (length seen) (length todo))
    (cs, seen ++ todo, stride circle * length seen)%nat
  = Some (cs ++ imap (λ k Vs, LinearConstraint_new_dist
                        (segment_midpoint path circle (length seen + k)) (vs_ Vs)
                        distance) todo,
          seen ++ imap (λ k, tightened path circle distance (length seen + k)) todo,
          stride circle * (length seen + length todo))%nat.
Proof.
  revert seen cs. induction todo as [|Vs todo IH]; intros seen cs Hlen.
  - cbn. by rewrite !app_nil_r, Nat.add_0_r.
  - cbn [length seq for_each].
    rewrite set_constraints_round_step
      by (specialize (Hlen 0%nat); rewrite Nat.add_0_r in Hlen; apply Hlen; simpl; lia).
    cbn [mbind option_bind].
    replace (S (length seen))
      with (length (seen ++ [tightened path circle distance (length seen) Vs]))
      by (rewrite length_app; simpl; lia).
    rewrite IH.
    + rewrite !imap_cons, <- !app_assoc, !length_app. cbn [length app].
      rewrite !Nat.add_0_r.
      rewrite (imap_ext _ ((λ k Vs0, LinearConstraint_new_dist
                 (segment_midpoint path circle (length seen + k)) (vs_ Vs0) distance)
                 ∘ S) todo);
        [|by intros k x _; cbn; replace (length seen + 1 + k)%nat with (length seen + S k)%nat by lia].
      rewrite (imap_ext (λ k, tightened path circle distance (length seen + 1 + k))
                 ((λ k, tightened path circle distance (length seen + k)) ∘ S) todo);
        [|by intros k x _; cbn; replace (length seen + 1 + k)%nat with (length seen + S k)%nat by lia].
      do 2 f_equal. lia.
    + intros k Hk. rewrite length_app. cbn [length].
      specialize (Hlen (S k)). simpl in Hlen. 
      replace (length seen + 1 + k)%nat with (length seen + S k)%nat by lia.
      apply Hlen. lia.
Qed.

(** [set_constraints] in closed form. *)
Lemma set_constraints_spec distance (d : EllipsoidDecomp) :
  path_covers d →
  set_constraints distance d
  = Some (imap (λ i Vs, LinearConstraint_new_dist
                  (segment_midpoint (path_ d) (is_path_circle_only_ d) i)
                  (vs_ Vs) distance) (polyhedrons_ d),
          with_polyhedrons
            (imap (tightened (path_ d) (is_path_circle_only_ d) distance)
               (polyhedrons_ d)) d).
Proof.
  intros Hcov. unfold set_constraints, range. rewrite Nat.sub_0_r.
  pose proof (set_constraints_loop (path_ d) (is_path_circle_only_ d) distance
                [] [] (polyhedrons_ d)) as Hloop.
  cbn [length app] in Hloop. rewrite Nat.mul_0_r in Hloop.
  rewrite Hloop; [done|].
  intros k Hk. apply Hcov, Hk.
Qed.

End SetConstraints.

(** ** Decomposition *)

Section Dilate.

Context `{LS : LineSegmentOps}.

Lemma n_segments_of_range path_size circle :
  (0 ≤ n_segments_of path_size circle < 2 ^ 32)%Z.
Proof.
  unfold n_segments_of, to_uint.
  pose proof (Z.mod_pos_bound (Z.of_nat path_size) (2 ^ 32) ltac:(lia)).
  pose proof (Z.mod_pos_bound (Z.of_nat path_size `mod` 2 ^ 32 - 1) (2 ^ 32) ltac:(lia)).
  destruct circle; [|lia].
  split; [apply Z.div_pos; lia|].
  apply Z.div_lt_upper_bound; lia.
Qed.

Lemma n_segments_sequential path_size :
  1 ≤ path_size → (Z.of_nat path_size < 2 ^ 32)%Z →
  Z.to_nat (n_segments_of path_size false) = path_size - 1.
Proof.
  intros H1 H2. unfold n_segments_of.
  rewrite (to_uint_small (Z.of_nat path_size)) by lia.
  rewrite to_uint_small by lia. lia.
Qed.

Lemma n_segments_paired path_size :
  (Z.of_nat path_size < 2 ^ 32)%Z →
  Z.to_nat (n_segments_of path_size true) = path_size `div` 2.
Proof.
  intros H2. unfold n_segments_of.
  rewrite (to_uint_small (Z.of_nat path_size)) by lia.
  change 2%Z with (Z.of_nat 2). rewrite <- Nat2Z.inj_div. apply Nat2Z.id.
Qed.

Lemma create_line_step path circle local_bbox obs
    (seen : list (option LineSegment)) l todo :
  stride circle * length seen + 1 < length path →
  create_line path circle local_bbox obs (length seen)
    (seen ++ l :: todo, stride circle * length seen)
  = Some ((seen ++ [Some (uncurry (prepared_line local_bbox obs)
                            (segment_ends path circle (length seen)))]) ++ todo,
          stride circle * S (length seen)).
Proof.
  intros H0. unfold create_line.
  rewrite !(list_lookup_lookup_total_lt path) by lia. cbn [mbind option_bind].
  rewrite lookup_app_r, Nat.sub_diag by done.
  cbn [lookup list_lookup mbind option_bind].
  rewrite insert_app_r_alt, Nat.sub_diag by done. cbn [insert list_insert].
  rewrite <- app_assoc. do 2 f_equal. lia.
Qed.

(** The loop of lines 137-145, with the lines already created in [seen]. *)
Lemma create_line_loop path circle local_bbox obs
    (seen todo : list (option LineSegment)) :
  (∀ k, k < length todo → stride circle * (length seen + k) + 1 < length path) →
  for_each (create_line path circle local_bbox obs)
    (seq (length seen) (length todo)) (seen ++ todo, stride circle * length seen)
  = Some (seen ++ ((λ k, Some (uncurry (prepared_line local_bbox obs)
                                (segment_ends path circle k)))
                   <$> seq (length seen) (length todo)),
          stride circle * (length seen + length todo)).
Proof.
  revert seen. induction todo as [|l todo IH]; intros seen Hlen.
  - cbn. by rewrite Nat.add_0_r.
  - cbn [length seq for_each].
    pose proof (Hlen 0 ltac:(simpl; lia)) as H0. rewrite Nat.add_0_r in H0.
    rewrite create_line_step by done. cbn [mbind option_bind].
    set (l' := Some (uncurry (prepared_line local_bbox obs)
                       (segment_ends path circle (length seen)))).
    replace (S (length seen)) with (length (seen ++ [l']))
      by (rewrite length_app; simpl; lia).
    rewrite IH.
    + rewrite length_app. cbn [length fmap list_fmap].
      rewrite <- app_assoc. cbn [app].
      replace (length seen + 1) with (S (length seen)) by lia.
      do 2 f_equal. lia.
    + intros k Hk. rewrite length_app. cbn [length].
      replace (length seen + 1 + k) with (length seen + S k) by lia.
      apply Hlen. simpl. lia.
Qed.

(** The four workers, one after the other, visit the indices of their
    ranges in turn. *)
Lemma run_threads_concat offset_x rs (lines : list (option LineSegment)) :
  run_threads offset_x rs lines
  = for_each (dilate_one offset_x) (concat (thread_indices <$> rs)) lines.
Proof.
  revert lines. induction rs as [|r rs IH]; intros lines; [done|].
  cbn [run_threads fmap list_fmap concat]. rewrite for_each_app.
  unfold threadingFunction. destruct r as [start end_]. cbn [fst snd].
  destruct (for_each _ _ lines); [apply IH|done].
Qed.

Lemma dilate_one_step offset_x (seen : list (option LineSegment)) l todo :
  dilate_one offset_x (length seen) (seen ++ Some l :: todo)
  = Some ((seen ++ [Some (dilate_line offset_x (set_obs_line l))]) ++ todo).
Proof.
  unfold dilate_one.
  rewrite lookup_app_r, Nat.sub_diag by done.
  cbn [lookup list_lookup mbind option_bind].
  rewrite insert_app_r_alt, Nat.sub_diag by done. cbn [insert list_insert].
  by rewrite <- app_assoc.
Qed.

Lemma dilate_one_loop offset_x (seen : list (option LineSegment)) (todo : list LineSegment) :
  for_each (dilate_one offset_x) (seq (length seen) (length todo))
    (seen ++ (Some <$> todo))
  = Some (seen ++ ((λ l, Some (dilate_line offset_x (set_obs_line l))) <$> todo)).
Proof.
  revert seen. induction todo as [|l todo IH]; intros seen; [done|].
  cbn [length seq for_each]. rewrite fmap_cons, dilate_one_step.
  cbn [mbind option_bind].
  replace (S (length seen))
    with (length (seen ++ [Some (dilate_line offset_x (set_obs_line l))]))
    by (rewrite length_app; simpl; lia).
  by rewrite IH, fmap_cons, <- app_assoc.
Qed.

Lemma collect_one_step (lseen ltodo : list LineSegment) l
    (eseen etodo : list Ellipsoid) e (pseen ptodo : list Polyhedron) p :
  length eseen = length lseen → length pseen = length lseen →
  collect_one (Some <$> lseen ++ l :: ltodo) (length lseen)
    (eseen ++ e :: etodo, pseen ++ p :: ptodo)
  = Some ((eseen ++ [get_ellipsoid l]) ++ etodo,
          (pseen ++ [get_polyhedron l]) ++ ptodo).
Proof.
  intros He Hp. unfold collect_one.
  rewrite list_lookup_fmap, !lookup_app_r by lia.
  rewrite He, Hp, Nat.sub_diag.
  cbn [lookup list_lookup fmap option_fmap option_map mbind option_bind].
  rewrite !insert_app_r_alt by lia. rewrite He, Hp, Nat.sub_diag.
  cbn [insert list_insert].
  by rewrite <- !app_assoc.
Qed.

(** The loop of lines 180-183. *)
Lemma collect_one_loop (lseen ltodo : list LineSegment)
    (eseen etodo : list Ellipsoid) (pseen ptodo : list Polyhedron) :
  length eseen = length lseen → length pseen = length lseen →
  length etodo = length ltodo → length ptodo = length ltodo →
  for_each (collect_one (Some <$> lseen ++ ltodo))
    (seq (length lseen) (length ltodo)) (eseen ++ etodo, pseen ++ ptodo)
  = Some (eseen ++ (get_ellipsoid <$> ltodo), pseen ++ (get_polyhedron <$> ltodo)).
Proof.
  revert lseen eseen etodo pseen ptodo.
  induction ltodo as [|l ltodo IH]; intros lseen eseen etodo pseen ptodo He Hp Het Hpt.
  - destruct etodo, ptodo; done.
  - destruct etodo as [|e etodo]; [done|]. destruct ptodo as [|p ptodo]; [done|].
    cbn [length seq for_each]. rewrite collect_one_step by done.
    cbn [mbind option_bind].
    rewrite (cons_middle l lseen ltodo), app_assoc.
    replace (S (length lseen)) with (length (lseen ++ [l]))
      by (rewrite length_app; simpl; lia).
    rewrite IH; rewrite ?length_app; simpl in *; try lia.
    by rewrite <- !app_assoc.
Qed.

Lemma boxed_fmap D (d : EllipsoidDecomp) (ps : list Polyhedron) :
  (if global_bbox_set (global_bbox_min_ d) (global_bbox_max_ d)
   then add_global_bbox D (global_bbox_min_ d) (global_bbox_max_ d) <$> ps
   else ps)
  = boxed D d <$> ps.
Proof.
  unfold boxed. destruct (global_bbox_set _ _); [done|].
  by rewrite list_fmap_id.
Qed.

(** [dilate] in closed form, for a path that has the two ends of every
    segment. *)
Lemma dilate_spec D path offset_x circle (d : EllipsoidDecomp) :
  (∀ k, k < Z.to_nat (n_segments_of (length path) circle) →
        stride circle * k + 1 < length path) →
  dilate D path offset_x circle d
  = Some (mkEllipsoidDecomp path circle (obs_ d)
            (get_ellipsoid <$> fitted_lines d path offset_x circle)
            (boxed D d <$> (get_polyhedron <$> fitted_lines d path offset_x circle))
            (Some <$> fitted_lines d path offset_x circle)
            (local_bbox_ d) (global_bbox_min_ d) (global_bbox_max_ d)).
Proof.
  intros Hcov. unfold dilate, fitted_lines, range.
  set (n := Z.to_nat (n_segments_of (length path) circle)) in *.
  rewrite Nat.sub_0_r.
  (* creation *)
  pose proof (create_line_loop path circle (local_bbox_ d) (obs_ d) []
                (resize n None (lines_ d))) as Hcreate.
  rewrite length_resize in Hcreate. cbn [length app] in Hcreate.
  rewrite Nat.mul_0_r in Hcreate. rewrite Hcreate by done.
  cbn [mbind option_bind]. clear Hcreate.
  (* workers *)
  rewrite run_threads_concat, thread_indices_concat by apply n_segments_of_range.
  fold n.
  set (prepared := (λ k, uncurry (prepared_line (local_bbox_ d) (obs_ d))
                           (segment_ends path circle k)) <$> seq 0 n).
  assert (((λ k, Some (uncurry (prepared_line (local_bbox_ d) (obs_ d))
                         (segment_ends path circle k))) <$> seq 0 n)
          = Some <$> prepared) as ->.
  { unfold prepared. by rewrite <- list_fmap_compose. }
  assert (length prepared = n) as Hlen.
  { unfold prepared. by rewrite length_fmap, length_seq. }
  pose proof (dilate_one_loop offset_x [] prepared) as Hrun.
  rewrite Hlen in Hrun. cbn [length app] in Hrun. rewrite Hrun.
  cbn [mbind option_bind]. clear Hrun.
  set (fitted := (λ k, uncurry (fitted_line d offset_x) (segment_ends path circle k))
                 <$> seq 0 n).
  assert (((λ l, Some (dilate_line offset_x (set_obs_line l))) <$> prepared)
          = Some <$> fitted) as ->.
  { unfold prepared, fitted. rewrite <- !list_fmap_compose.
    apply list_fmap_ext. intros i k _. cbn. by destruct (segment_ends path circle k). }
  assert (length fitted = n) as Hlenf.
  { unfold fitted. by rewrite length_fmap, length_seq. }
  (* collection *)
  pose proof (collect_one_loop [] fitted []
                (resize n Ellipsoid_default (ellipsoids_ d)) []
                (resize n (mkPolyhedron []) (polyhedrons_ d))) as Hcollect.
  rewrite Hlenf in Hcollect. cbn [length app] in Hcollect.
  rewrite Hcollect by (rewrite ?length_resize; done).
  cbn [mbind option_bind]. by rewrite boxed_fmap.
Qed.

End Dilate.

(** ** Tightening: the claims *)

Section TightenClaims.

Context `{LS : LineSegmentOps} `{LC : LinearConstraintOps}.

Local Open Scope R_scope.

Lemma tighten_polyhedron_Some (d : EllipsoidDecomp) i pt_inside distance Vs :
  polyhedrons_ d !! i = Some Vs →
  tighten_polyhedron i pt_inside distance d
  = Some (with_polyhedrons
            (<[i := tighten_faces pt_inside distance Vs]> (polyhedrons_ d)) d).
Proof.
  intros Hi. unfold tighten_polyhedron.
  by rewrite (tighten_polyhedrons_Some _ _ _ _ _ Hi).
Qed.

(** The local normal in the words of the algorithm. *)
Lemma tighten_normal_unfold pt_inside v :
  tighten_normal pt_inside v
  = Vec.normalized
      (if Rgt_dec (Vec.dot (n_ v) pt_inside - Vec.dot (n_ v) (p_ v)) 0
       then Vec.neg (n_ v) else n_ v).
Proof. unfold tighten_normal. by rewrite (dot_comm (p_ v)). Qed.

(** C5 (the tightening step).  [tighten_polyhedron(i, pt_inside, d)] on an
    existing polyhedron [i] returns, changes no other polyhedron and no other
    member, keeps the number of faces, and replaces every face [j], stored
    as anchor [p] and normal [n], by the face with anchor [p - d * n'] and the
    same stored normal, where [n'] is [n], negated when
    [n.pt_inside - n.p > 0], then normalized.  [n'] has length one when [n] is
    not the zero vector; [pt_inside] is never on its positive side, so it
    points outward; and the new anchor lies [d] lower along [n'], so the face
    has moved inward by [d]. *)
Theorem C5_tighten_polyhedron_step (d : EllipsoidDecomp) i pt_inside distance Vs :
  polyhedrons_ d !! i = Some Vs →
  ∃ Vs',
    tighten_polyhedron i pt_inside distance d
    = Some (with_polyhedrons (<[i := Vs']> (polyhedrons_ d)) d)
    ∧ length (vs_ Vs') = length (vs_ Vs)
    ∧ ∀ j v, vs_ Vs !! j = Some v →
        let n' := Vec.normalized
                    (if Rgt_dec (Vec.dot (n_ v) pt_inside - Vec.dot (n_ v) (p_ v)) 0
                     then Vec.neg (n_ v) else n_ v) in
        let p' := Vec.sub (p_ v) (Vec.scale distance n') in
        vs_ Vs' !! j = Some (mkHyperplane p' (n_ v))
        ∧ Vec.dot n' pt_inside - Vec.dot n' (p_ v) <= 0
        ∧ (Vec.squaredNorm (n_ v) > 0 →
           Vec.norm n' = 1
           ∧ (length (p_ v) = length (n_ v) →
              Vec.dot n' p' = Vec.dot n' (p_ v) - distance)).
Proof.
  intros Hi. exists (tighten_faces pt_inside distance Vs).
  split; [by apply tighten_polyhedron_Some|].
  split; [apply length_fmap|].
  intros j v Hj n' p'.
  assert (tighten_normal pt_inside v = n') as En by apply tighten_normal_unfold.
  split; [|split].
  - unfold tighten_faces. cbn [vs_]. rewrite list_lookup_fmap, Hj. cbn.
    unfold tighten_hyperplane. by rewrite En.
  - subst n'. apply dot_normalized_sign.
    destruct (Rgt_dec _ _) as [Hgt|Hle]; [|lra].
    rewrite !dot_neg_l. lra.
  - intros Hpos.
    assert (Vec.squaredNorm
              (if Rgt_dec (Vec.dot (n_ v) pt_inside - Vec.dot (n_ v) (p_ v)) 0
               then Vec.neg (n_ v) else n_ v) > 0) as Hpos'.
    { destruct (Rgt_dec _ _); [by rewrite squaredNorm_neg|done]. }
    assert (length n' = length (n_ v)) as Hlen.
    { rewrite <- En. apply length_tighten_normal. }
    split; [by apply normalized_norm|].
    intros Hp. unfold p'.
    rewrite dot_sub_r, dot_scale_r by (rewrite ?length_scale; congruence).
    fold (Vec.squaredNorm n'). subst n'. rewrite normalized_unit by done. lra.
Qed.

Lemma stored_normals_tighten_faces pt_inside distance Vs :
  n_ <$> vs_ (tighten_faces pt_inside distance Vs) = n_ <$> vs_ Vs.
Proof.
  unfold tighten_faces. cbn [vs_]. rewrite <- list_fmap_compose.
  by apply list_fmap_ext.
Qed.

Lemma stored_normals_tightened path circle distance i Vs :
  n_ <$> vs_ (tightened path circle distance i Vs) = n_ <$> vs_ Vs.
Proof.
  unfold tightened. destruct (Rgt_dec _ _); [|done].
  apply stored_normals_tighten_faces.
Qed.

Lemma stored_normals_imap_tightened path circle distance ps :
  stored_normals (imap (tightened path circle distance) ps) = stored_normals ps.
Proof.
  unfold stored_normals. rewrite fmap_imap.
  rewrite <- (imap_const (λ Vs, n_ <$> vs_ Vs) ps).
  apply imap_ext. intros i Vs _. cbn. apply stored_normals_tightened.
Qed.

(** C10 (frame of tightening).  [tighten_polyhedron] on an existing
    polyhedron, and [set_constraints] with any clearance on a decomposition
    whose polyhedrons have their path elements, return and change no member
    but [polyhedrons_]; in [polyhedrons_] the stored normal of every face of
    every polyhedron is afterwards the vector it was before: neither negated
    nor normalized in place, so a normal stored pointing inward is still
    stored pointing that way. *)
Theorem C10_tightening_keeps_stored_normals (d : EllipsoidDecomp) :
  (∀ i pt_inside distance,
     (i < length (polyhedrons_ d))%nat →
     ∃ ps', tighten_polyhedron i pt_inside distance d = Some (with_polyhedrons ps' d)
            ∧ stored_normals ps' = stored_normals (polyhedrons_ d))
  ∧ (∀ distance,
       path_covers d →
       ∃ cs ps', set_constraints distance d = Some (cs, with_polyhedrons ps' d)
                 ∧ stored_normals ps' = stored_normals (polyhedrons_ d)).
Proof.
  split.
  - intros i pt_inside distance Hi.
    destruct (lookup_lt_is_Some_2 _ _ Hi) as [Vs HVs].
    eexists. split; [by apply tighten_polyhedron_Some|].
    unfold stored_normals. rewrite list_fmap_insert, stored_normals_tighten_faces.
    apply list_insert_id. by rewrite list_lookup_fmap, HVs.
  - intros distance Hcov. eexists _, _.
    split; [by apply set_constraints_spec|].
    apply stored_normals_imap_tightened.
Qed.

(** C9 (clearance 0).  On a decomposition whose polyhedrons have their path
    elements, [set_constraints] with clearance 0 returns and leaves the
    orchestrator exactly as it was, anchors and normals included; a second
    call right after it therefore returns the same constraints again. *)
Theorem C9_zero_clearance_leaves_polyhedrons (d : EllipsoidDecomp) :
  path_covers d →
  ∃ cs, set_constraints 0 d = Some (cs, d)
        ∧ ∀ cs1 d1, set_constraints 0 d = Some (cs1, d1) →
                    d1 = d ∧ set_constraints 0 d1 = Some (cs1, d1).
Proof.
  intros Hcov.
  assert (∃ cs, set_constraints 0 d = Some (cs, d)) as [cs E].
  { rewrite (set_constraints_spec 0 d Hcov).
    assert (imap (tightened (path_ d) (is_path_circle_only_ d) 0) (polyhedrons_ d)
            = polyhedrons_ d) as ->.
    { transitivity (imap (const (@Datatypes.id Polyhedron)) (polyhedrons_ d));
        [|by rewrite imap_const, list_fmap_id].
      apply imap_ext. intros i Vs _.
      unfold tightened. destruct (Rgt_dec 0 0); [lra|done]. }
    rewrite with_polyhedrons_id. by eexists. }
  exists cs. split; [done|].
  intros cs1 d1 E1. rewrite E in E1. injection E1 as <- <-. by rewrite E.
Qed.

End TightenClaims.

(** ** Segments of a path: the claims *)

Section DilateClaims.

Context `{LS : LineSegmentOps}.

Lemma fitted_lines_length (d : EllipsoidDecomp) path offset_x circle :
  length (fitted_lines d path offset_x circle)
  = Z.to_nat (n_segments_of (length path) circle).
Proof. unfold fitted_lines. by rewrite length_fmap, length_seq. Qed.

Lemma fitted_lines_lookup (d : EllipsoidDecomp) path offset_x circle i :
  i < Z.to_nat (n_segments_of (length path) circle) →
  stride circle * i + 1 < length path →
  ∃ a b, path !! (stride circle * i) = Some a
         ∧ path !! (stride circle * i + 1) = Some b
         ∧ fitted_lines d path offset_x circle !! i
           = Some (fitted_line d offset_x a b).
Proof.
  intros Hi Hlen.
  exists (path !!! (stride circle * i)), (path !!! (stride circle * i + 1)).
  rewrite !(list_lookup_lookup_total_lt path) by lia.
  split; [done|]. split; [done|].
  unfold fitted_lines. rewrite list_lookup_fmap, lookup_seq_lt by done. done.
Qed.

(** What [dilate] returns, segment by segment. *)
Lemma dilate_segments D path offset_x circle (d : EllipsoidDecomp) n :
  n = Z.to_nat (n_segments_of (length path) circle) →
  (∀ k, k < n → stride circle * k + 1 < length path) →
  ∃ d',
    dilate D path offset_x circle d = Some d'
    ∧ path_ d' = path ∧ is_path_circle_only_ d' = circle
    ∧ length (lines_ d') = n
    ∧ length (ellipsoids_ d') = n
    ∧ length (polyhedrons_ d') = n
    ∧ ∀ i, i < n →
        ∃ a b, path !! (stride circle * i) = Some a
               ∧ path !! (stride circle * i + 1) = Some b
               ∧ lines_ d' !! i = Some (Some (fitted_line d offset_x a b))
               ∧ ellipsoids_ d' !! i
                 = Some (get_ellipsoid (fitted_line d offset_x a b))
               ∧ polyhedrons_ d' !! i
                 = Some (boxed D d (get_polyhedron (fitted_line d offset_x a b))).
Proof.
  intros -> Hcov. eexists. split; [by apply dilate_spec|].
  cbn [path_ is_path_circle_only_ lines_ ellipsoids_ polyhedrons_].
  rewrite !length_fmap, fitted_lines_length.
  do 5 (split; [done|]).
  intros i Hi.
  destruct (fitted_lines_lookup d path offset_x circle i Hi (Hcov i Hi))
    as (a & b & Ha & Hb & Hl).
  exists a, b. rewrite !list_lookup_fmap, Hl. done.
Qed.

Lemma paired_cover path_size k :
  (Z.of_nat path_size < 2 ^ 32)%Z →
  k < Z.to_nat (n_segments_of path_size true) → 2 * k + 1 < path_size.
Proof.
  intros Hlt. rewrite n_segments_paired by done. intros Hk.
  pose proof (Nat.Div0.mul_div_le path_size 2). lia.
Qed.

(** C1 (segments of a path).  For a path of at least 2 points (and fewer
    than 2^32, the range of [n_path]), [dilate] returns.  In sequential mode
    it holds [len - 1] lines, ellipsoids and polyhedrons, the ones at index
    [i] fitted to the segment from [path[i]] to [path[i+1]].  In paired mode
    it holds [len / 2] (rounded down) of each, the ones at index [i] fitted
    to the segment from [path[2i]] to [path[2i+1]].  A path of odd length
    gives in paired mode the lines, ellipsoids and polyhedrons of the path
    without its last point: the trailing point is dropped and nothing is
    reported. *)
Theorem C1_dilate_segments D path offset_x (d : EllipsoidDecomp) :
  2 ≤ length path → (Z.of_nat (length path) < 2 ^ 32)%Z →
  (∃ d',
     dilate D path offset_x false d = Some d'
     ∧ length (lines_ d') = length path - 1
     ∧ length (ellipsoids_ d') = length path - 1
     ∧ length (polyhedrons_ d') = length path - 1
     ∧ ∀ i, i < length path - 1 →
         ∃ a b, path !! i = Some a ∧ path !! (i + 1) = Some b
                ∧ lines_ d' !! i = Some (Some (fitted_line d offset_x a b))
                ∧ ellipsoids_ d' !! i
                  = Some (get_ellipsoid (fitted_line d offset_x a b))
                ∧ polyhedrons_ d' !! i
                  = Some (boxed D d (get_polyhedron (fitted_line d offset_x a b))))
  ∧ (∃ d',
       dilate D path offset_x true d = Some d'
       ∧ length (lines_ d') = length path `div` 2
       ∧ length (ellipsoids_ d') = length path `div` 2
       ∧ length (polyhedrons_ d') = length path `div` 2
       ∧ ∀ i, i < length path `div` 2 →
           ∃ a b, path !! (2 * i) = Some a ∧ path !! (2 * i + 1) = Some b
                  ∧ lines_ d' !! i = Some (Some (fitted_line d offset_x a b))
                  ∧ ellipsoids_ d' !! i
                    = Some (get_ellipsoid (fitted_line d offset_x a b))
                  ∧ polyhedrons_ d' !! i
                    = Some (boxed D d (get_polyhedron (fitted_line d offset_x a b))))
  ∧ (∀ path' x,
       path = path' ++ [x] → Nat.Odd (length path) →
       ∃ d1 d2,
         dilate D path offset_x true d = Some d1
         ∧ dilate D path' offset_x true d = Some d2
         ∧ lines_ d1 = lines_ d2
         ∧ ellipsoids_ d1 = ellipsoids_ d2
         ∧ polyhedrons_ d1 = polyhedrons_ d2).
Proof.
  intros H2 Hlt. split; [|split].
  - destruct (dilate_segments D path offset_x false d (length path - 1))
      as (d' & E & _ & _ & Hl & He & Hp & Hseg).
    { by rewrite n_segments_sequential by lia. }
    { intros k Hk. simpl. lia. }
    exists d'. do 4 (split; [done|]).
    intros i Hi. destruct (Hseg i Hi) as (a & b & Ha & Hb & H).
    exists a, b. cbn [stride] in Ha, Hb.
    rewrite Nat.mul_1_l in Ha, Hb. done.
  - destruct (dilate_segments D path offset_x true d (length path `div` 2))
      as (d' & E & _ & _ & Hl & He & Hp & Hseg).
    { by rewrite n_segments_paired. }
    { intros k Hk. apply paired_cover; [done|]. by rewrite n_segments_paired. }
    exists d'. do 4 (split; [done|]). done.
  - intros path' x -> Hodd.
    rewrite length_app in Hlt, Hodd, H2. cbn [length] in Hlt, Hodd, H2.
    assert (Nat.Even (length path')) as [m Hm].
    { destruct Hodd as [m Hm]. exists m. lia. }
    rewrite (dilate_spec D (path' ++ [x]))
      by (intros k; apply paired_cover; rewrite length_app; simpl; lia).
    rewrite (dilate_spec D path')
      by (intros k; apply paired_cover; lia).
    eexists _, _. split; [done|]. split; [done|].
    cbn [lines_ ellipsoids_ polyhedrons_].
    assert (fitted_lines d (path' ++ [x]) offset_x true
            = fitted_lines d path' offset_x true) as ->; [|done].
    unfold fitted_lines.
    rewrite !n_segments_paired by (rewrite ?length_app; simpl; lia).
    rewrite length_app. cbn [length].
    replace ((length path' + 1) `div` 2) with m
      by (rewrite Hm; apply Nat.div_unique with 1; lia).
    replace (length path' `div` 2) with m
      by (rewrite Hm; apply Nat.div_unique with 0; lia).
    apply list_eq. intros i. rewrite !list_lookup_fmap.
    destruct (seq 0 m !! i) as [k|] eqn:Ek; [|done].
    apply lookup_seq in Ek as [-> Hk]. cbn [fmap option_fmap option_map].
    unfold segment_ends. cbn [stride].
    rewrite !lookup_total_app_l by lia. done.
Qed.

End DilateClaims.

(** ** Short paths *)

Section ShortPaths.

Context `{LS : LineSegmentOps}.

Lemma n_segments_short path_size circle :
  path_size = 1 ∨ (path_size = 0 ∧ circle = true) →
  n_segments_of path_size circle = 0%Z.
Proof. intros [->|[-> ->]]; [by destruct circle|done]. Qed.

(** C4, amended (short paths).  [dilate] has no check of the path length.
    For a path of one point, in either mode, and for an empty path in paired
    mode, it computes zero segments, hands the four workers empty ranges and
    returns with no line, no ellipsoid and no polyhedron, the path and the
    mode stored. *)
Theorem C4_short_path_gives_empty_result D path offset_x circle (d : EllipsoidDecomp) :
  length path = 1 ∨ (length path = 0 ∧ circle = true) →
  dilate D path offset_x circle d
  = Some (mkEllipsoidDecomp path circle (obs_ d) [] [] []
            (local_bbox_ d) (global_bbox_min_ d) (global_bbox_max_ d))
  ∧ thread_indices <$> thread_ranges (n_segments_of (length path) circle)
    = [[]; []; []; []].
Proof.
  intros Hshort. pose proof (n_segments_short _ _ Hshort) as Hn.
  split; [|by rewrite Hn].
  rewrite dilate_spec by (rewrite Hn; simpl; lia).
  unfold fitted_lines. by rewrite Hn.
Qed.

(** An empty path in sequential mode: [n_path - 1] wraps around to
    [2^32 - 1] and the first round of the first loop reads [path[0]]. *)
Lemma dilate_empty_sequential D offset_x (d : EllipsoidDecomp) :
  n_segments_of 0 false = 4294967295%Z ∧ dilate D [] offset_x false d = None.
Proof.
  split; [done|]. unfold dilate. cbn [length].
  change (n_segments_of 0 false) with 4294967295%Z.
  destruct (Z.to_nat 4294967295) as [|n] eqn:En; [lia|].
  by rewrite range_cons by lia.
Qed.

End ShortPaths.

(** ** The global bounding box *)

Section GlobalBbox.

Context `{LS : LineSegmentOps}.

Local Open Scope R_scope.

(** In two dimensions: the four faces, as they are appended. *)
Lemma add_global_bbox_2d bbox_min bbox_max Vs :
  vs_ (add_global_bbox Dim2 bbox_min bbox_max Vs)
  = vs_ Vs ++
    [mkHyperplane [Vec.coeff bbox_max 0; 0] [1; 0];
     mkHyperplane [Vec.coeff bbox_min 0; 0] [-1; 0];
     mkHyperplane [0; Vec.coeff bbox_max 1] [0; 1];
     mkHyperplane [0; Vec.coeff bbox_min 1] [0; -1]].
Proof. cbn. by rewrite <- !app_assoc. Qed.

(** In three dimensions: the six faces, as they are appended.  The last one,
    with normal [(0, -1, 0)], is anchored at the maximum corner. *)
Lemma add_global_bbox_3d bbox_min bbox_max Vs :
  vs_ (add_global_bbox Dim3 bbox_min bbox_max Vs)
  = vs_ Vs ++
    [mkHyperplane [0; 0; Vec.coeff bbox_max 2] [0; 0; 1];
     mkHyperplane [0; 0; Vec.coeff bbox_min 2] [0; 0; -1];
     mkHyperplane [Vec.coeff bbox_max 0; 0; 0] [1; 0; 0];
     mkHyperplane [Vec.coeff bbox_min 0; 0; 0] [-1; 0; 0];
     mkHyperplane [0; Vec.coeff bbox_max 1; 0] [0; 1; 0];
     mkHyperplane [0; Vec.coeff bbox_max 1; 0] [0; -1; 0]].
Proof. cbn. by rewrite <- !app_assoc. Qed.

Lemma global_bbox_set_max bbox_min bbox_max :
  Vec.squaredNorm bbox_max > 0 → global_bbox_set bbox_min bbox_max = true.
Proof.
  intros Hpos. unfold global_bbox_set.
  pose proof (norm_pos bbox_max Hpos).
  destruct (Req_dec_T (Vec.norm bbox_min) 0); [|done].
  destruct (Req_dec_T (Vec.norm bbox_max) 0); [lra|done].
Qed.

Lemma global_bbox_unset (d : EllipsoidDecomp) D Vs :
  global_bbox_set (global_bbox_min_ d) (global_bbox_max_ d) = false →
  boxed D d Vs = Vs.
Proof. intros H. unfold boxed. by rewrite H. Qed.

Lemma global_bbox_set_boxed (d : EllipsoidDecomp) D Vs :
  global_bbox_set (global_bbox_min_ d) (global_bbox_max_ d) = true →
  boxed D d Vs = add_global_bbox D (global_bbox_min_ d) (global_bbox_max_ d) Vs.
Proof. intros H. unfold boxed. by rewrite H. Qed.

(** In two dimensions with the box set, every polyhedron [dilate] stores is
    the fitted one followed by the four faces: normal [(1, 0)] at the [x] of
    the maximum corner, [(-1, 0)] at the [x] of the minimum corner, [(0, 1)]
    at the [y] of the maximum corner, [(0, -1)] at the [y] of the minimum
    corner, the other coordinate 0. *)
Lemma dilate_bbox_2d path offset_x circle (d : EllipsoidDecomp) :
  global_bbox_set (global_bbox_min_ d) (global_bbox_max_ d) = true →
  (∀ k, (k < Z.to_nat (n_segments_of (length path) circle))%nat →
        (stride circle * k + 1 < length path)%nat) →
  ∃ d',
    dilate Dim2 path offset_x circle d = Some d'
    ∧ ∀ i, (i < Z.to_nat (n_segments_of (length path) circle))%nat →
        ∃ a b Vs,
          path !! (stride circle * i)%nat = Some a
          ∧ path !! (stride circle * i + 1)%nat = Some b
          ∧ polyhedrons_ d' !! i = Some Vs
          ∧ vs_ Vs
            = vs_ (get_polyhedron (fitted_line d offset_x a b)) ++
              [mkHyperplane [Vec.coeff (global_bbox_max_ d) 0; 0] [1; 0];
               mkHyperplane [Vec.coeff (global_bbox_min_ d) 0; 0] [-1; 0];
               mkHyperplane [0; Vec.coeff (global_bbox_max_ d) 1] [0; 1];
               mkHyperplane [0; Vec.coeff (global_bbox_min_ d) 1] [0; -1]].
Proof.
  intros Hset Hcov.
  destruct (dilate_segments Dim2 path offset_x circle d _ eq_refl Hcov)
    as (d' & E & _ & _ & _ & _ & _ & Hseg).
  exists d'. split; [done|]. intros i Hi.
  destruct (Hseg i Hi) as (a & b & Ha & Hb & _ & _ & Hp).
  exists a, b. eexists. do 3 (split; [done|]).
  by rewrite global_bbox_set_boxed, add_global_bbox_2d.
Qed.

(** With both corners zero the stored polyhedrons are the fitted ones. *)
Lemma dilate_bbox_unset D path offset_x circle (d : EllipsoidDecomp) :
  global_bbox_set (global_bbox_min_ d) (global_bbox_max_ d) = false →
  (∀ k, (k < Z.to_nat (n_segments_of (length path) circle))%nat →
        (stride circle * k + 1 < length path)%nat) →
  ∃ d',
    dilate D path offset_x circle d = Some d'
    ∧ polyhedrons_ d' = get_polyhedron <$> fitted_lines d path offset_x circle.
Proof.
  intros Hunset Hcov. eexists. split; [by apply dilate_spec|].
  cbn [polyhedrons_]. rewrite <- (list_fmap_id (get_polyhedron <$> _)) at 2.
  apply list_fmap_ext. intros i Vs _. by apply global_bbox_unset.
Qed.

(** A decomposition [dilate] has returned has, for every polyhedron, the two
    path elements of its segment. *)
Lemma dilate_path_covers D path offset_x circle (d d' : EllipsoidDecomp) :
  (∀ k, (k < Z.to_nat (n_segments_of (length path) circle))%nat →
        (stride circle * k + 1 < length path)%nat) →
  dilate D path offset_x circle d = Some d' → path_covers d'.
Proof.
  intros Hcov E.
  destruct (dilate_segments D path offset_x circle d _ eq_refl Hcov)
    as (d'' & E' & Hpath & Hmode & _ & _ & Hlen & _).
  rewrite E in E'. injection E' as <-.
  unfold path_covers. rewrite Hpath, Hmode, Hlen. apply Hcov.
Qed.

End GlobalBbox.

(** ** Interior points of the constraints *)

Section InteriorPoints.

Context `{LS : LineSegmentOps} `{LC : LinearConstraintOps}.

Lemma get_constraints_round_step (d : EllipsoidDecomp) pseen Vs ptodo
    (seen : list LinearConstraint) c todo :
  polyhedrons_ d = pseen ++ Vs :: ptodo →
  length seen = length pseen →
  length pseen + 1 < length (path_ d) →
  get_constraints_round d (length pseen) (seen ++ c :: todo)
  = Some ((seen ++ [LinearConstraint_new
                      (midpoint (path_ d !!! length pseen)
                         (path_ d !!! (length pseen + 1))) (vs_ Vs)]) ++ todo).
Proof.
  intros Hps Hlen Hpath. unfold get_constraints_round.
  rewrite !(list_lookup_lookup_total_lt (path_ d)) by lia.
  cbn [mbind option_bind].
  rewrite Hps, <- Hlen.
  rewrite (lookup_app_r pseen), Hlen, Nat.sub_diag by lia.
  cbn [lookup list_lookup mbind option_bind]. rewrite <- Hlen.
  rewrite lookup_app_r, Nat.sub_diag by done.
  cbn [lookup list_lookup mbind option_bind].
  rewrite insert_app_r_alt, Nat.sub_diag by done. cbn [insert list_insert].
  by rewrite <- app_assoc.
Qed.

Lemma get_constraints_loop (d : EllipsoidDecomp) pseen ptodo
    (seen todo : list LinearConstraint) :
  polyhedrons_ d = pseen ++ ptodo →
  length seen = length pseen → length todo = length ptodo →
  (∀ k, k < length ptodo → length pseen + k + 1 < length (path_ d)) →
  for_each (get_constraints_round d) (seq (length pseen) (length ptodo))
    (seen ++ todo)
  = Some (seen ++ imap (λ k Vs, LinearConstraint_new
                          (midpoint (path_ d !!! (length pseen + k))
                             (path_ d !!! (length pseen + k + 1))) (vs_ Vs))
                    ptodo).
Proof.
  revert pseen seen todo.
  induction ptodo as [|Vs ptodo IH]; intros pseen seen todo Hps Hlen Hlent Hpath.
  - destruct todo; done.
  - destruct todo as [|c todo]; [done|]. cbn [length seq for_each].
    pose proof (Hpath 0 ltac:(simpl; lia)) as H0. rewrite Nat.add_0_r in H0.
    rewrite (get_constraints_round_step d pseen Vs ptodo) by done.
    cbn [mbind option_bind].
    replace (S (length pseen)) with (length (pseen ++ [Vs]))
      by (rewrite length_app; simpl; lia).
    rewrite IH.
    + rewrite imap_cons, <- app_assoc, length_app. cbn [length app].
      rewrite !Nat.add_0_r. do 3 f_equal.
      apply imap_ext. intros k x _. cbn.
      by replace (length pseen + 1 + k) with (length pseen + S k) by lia.
    + by rewrite Hps, <- app_assoc.
    + rewrite !length_app. simpl. lia.
    + simpl in Hlent. lia.
    + intros k Hk. rewrite length_app. cbn [length].
      specialize (Hpath (S k)). simpl in Hpath. lia.
Qed.

(** [get_constraints] in closed form: the cursor is the polyhedron index,
    whatever the mode. *)
Lemma get_constraints_spec (d : EllipsoidDecomp) :
  (∀ i, i < length (polyhedrons_ d) → i + 1 < length (path_ d)) →
  get_constraints d
  = Some (imap (λ i Vs, LinearConstraint_new
                  (midpoint (path_ d !!! i) (path_ d !!! (i + 1))) (vs_ Vs))
            (polyhedrons_ d)).
Proof.
  intros Hpath. unfold get_constraints, range. rewrite Nat.sub_0_r.
  pose proof (get_constraints_loop d [] (polyhedrons_ d) []
                (resize (length (polyhedrons_ d)) LinearConstraint_default []))
    as Hloop.
  cbn [length app] in Hloop. rewrite Hloop; try done.
  by rewrite length_resize.
Qed.

(** The interior points of [set_constraints] are the midpoints of the
    segments, in both modes. *)
Lemma set_constraints_interior_points distance (d : EllipsoidDecomp) :
  path_covers d →
  ∃ cs d',
    set_constraints distance d = Some (cs, d')
    ∧ length cs = length (polyhedrons_ d)
    ∧ ∀ i Vs, polyhedrons_ d !! i = Some Vs →
        ∃ a b, path_ d !! (stride (is_path_circle_only_ d) * i) = Some a
               ∧ path_ d !! (stride (is_path_circle_only_ d) * i + 1) = Some b
               ∧ cs !! i = Some (LinearConstraint_new_dist (midpoint a b)
                                   (vs_ Vs) distance).
Proof.
  intros Hcov. eexists _, _. split; [by apply set_constraints_spec|].
  split; [by rewrite length_imap|].
  intros i Vs Hi. pose proof (Hcov i (lookup_lt_Some _ _ _ Hi)) as Hlen.
  exists (path_ d !!! (stride (is_path_circle_only_ d) * i)),
         (path_ d !!! (stride (is_path_circle_only_ d) * i + 1)).
  rewrite !(list_lookup_lookup_total_lt (path_ d)) by lia.
  split; [done|]. split; [done|].
  by rewrite list_lookup_imap, Hi.
Qed.

(** The interior points of [get_constraints] are the midpoints of
    consecutive path elements. *)
Lemma get_constraints_interior_points (d : EllipsoidDecomp) :
  path_covers d →
  ∃ cs,
    get_constraints d = Some cs
    ∧ length cs = length (polyhedrons_ d)
    ∧ ∀ i Vs, polyhedrons_ d !! i = Some Vs →
        ∃ a b, path_ d !! i = Some a ∧ path_ d !! (i + 1) = Some b
               ∧ cs !! i = Some (LinearConstraint_new (midpoint a b) (vs_ Vs)).
Proof.
  intros Hcov.
  assert (∀ i, i < length (polyhedrons_ d) → i + 1 < length (path_ d)) as Hpath.
  { intros i Hi. specialize (Hcov i Hi).
    pose proof (stride_pos (is_path_circle_only_ d)). nia. }
  eexists. split; [by apply get_constraints_spec|].
  split; [by rewrite length_imap|].
  intros i Vs Hi. pose proof (Hpath i (lookup_lt_Some _ _ _ Hi)) as Hlen.
  exists (path_ d !!! i), (path_ d !!! (i + 1)).
  rewrite !(list_lookup_lookup_total_lt (path_ d)) by lia.
  split; [done|]. split; [done|].
  by rewrite list_lookup_imap, Hi.
Qed.

End InteriorPoints.

(** ** Tightening through [set_constraints] *)

Section RepeatedTightening.

Context `{LS : LineSegmentOps} `{LC : LinearConstraintOps}.

Local Open Scope R_scope.

(** With a positive clearance every face of every polyhedron is tightened
    from the midpoint of its segment; the path and the mode stay. *)
Lemma set_constraints_pos (d : EllipsoidDecomp) distance :
  distance > 0 → path_covers d →
  ∃ cs d',
    set_constraints distance d = Some (cs, d')
    ∧ path_ d' = path_ d
    ∧ is_path_circle_only_ d' = is_path_circle_only_ d
    ∧ path_covers d'
    ∧ ∀ i j, face_at (polyhedrons_ d') i j
             = tighten_hyperplane
                 (segment_midpoint (path_ d) (is_path_circle_only_ d) i) distance
               <$> face_at (polyhedrons_ d) i j.
Proof.
  intros Hd Hcov. eexists _, _. split; [by apply set_constraints_spec|].
  cbn [with_polyhedrons path_ is_path_circle_only_ polyhedrons_].
  split; [done|]. split; [done|]. split.
  - unfold path_covers, with_polyhedrons. cbn [path_ is_path_circle_only_ polyhedrons_].
    intros i Hi. rewrite length_imap in Hi. by apply Hcov.
  - intros i j. unfold face_at. rewrite list_lookup_imap.
    destruct (polyhedrons_ d !! i) as [Vs|]; [|done]. cbn.
    unfold tightened. destruct (Rgt_dec distance 0); [|done].
    unfold tighten_faces. cbn [vs_]. apply list_lookup_fmap.
Qed.

Lemma segment_midpoint_lookup path circle i a b :
  path !! (stride circle * i)%nat = Some a →
  path !! (stride circle * i + 1)%nat = Some b →
  segment_midpoint path circle i = midpoint a b.
Proof.
  intros Ha Hb. unfold segment_midpoint.
  by rewrite (list_lookup_total_correct _ _ _ Ha), (list_lookup_total_correct _ _ _ Hb).
Qed.

(** C6, amended (sign consistency).  [set_constraints] with a clearance
    [d > 0] on a decomposition whose polyhedrons have their path elements
    returns, and for every face whose stored normal [n] and anchor [p] had
    the midpoint [pt] of its segment strictly on the negative side by more
    than the clearance, [n.pt - n.p < - d |n|], the stored normal is still
    [n] and the tightened anchor [p'] satisfies [n.pt - n.p' < 0]. *)
Theorem C6_sign_consistency_with_margin (d : EllipsoidDecomp) distance :
  distance > 0 → path_covers d →
  ∃ cs d',
    set_constraints distance d = Some (cs, d')
    ∧ ∀ i j v a b,
        face_at (polyhedrons_ d) i j = Some v →
        path_ d !! (stride (is_path_circle_only_ d) * i)%nat = Some a →
        path_ d !! (stride (is_path_circle_only_ d) * i + 1)%nat = Some b →
        length (p_ v) = length (n_ v) →
        let pt := midpoint a b in
        Vec.dot (n_ v) pt - Vec.dot (n_ v) (p_ v) < - (distance * Vec.norm (n_ v)) →
        ∃ v', face_at (polyhedrons_ d') i j = Some v'
              ∧ n_ v' = n_ v
              ∧ Vec.dot (n_ v') pt - Vec.dot (n_ v') (p_ v') < 0.
Proof.
  intros Hd Hcov.
  destruct (set_constraints_pos d distance Hd Hcov) as (cs & d' & E & _ & _ & _ & Hf).
  exists cs, d'. split; [done|].
  intros i j v a b Hv Ha Hb Hp pt Hside.
  specialize (Hf i j).
  rewrite (segment_midpoint_lookup _ _ _ _ _ Ha Hb) in Hf. fold pt in Hf.
  eexists. split; [by rewrite Hf, Hv|]. split; [done|].
  rewrite <- side_eq, side_tighten by done. rewrite <- side_eq in Hside.
  pose proof (norm_nonneg (n_ v)).
  assert (0 <= distance * Vec.norm (n_ v)) by nra.
  destruct (Rgt_dec (side pt v) 0); lra.
Qed.

(** C8, amended (repeated tightening).  Two calls of [set_constraints] with
    the same clearance [d > 0], nothing in between, both return.  The first
    moves every anchor [p] to [p - d * n'], [n'] the unit outward normal of
    C5.  The second moves it again: a face whose normal is not zero never
    keeps the anchor of the first call, so the operation is not idempotent.
    The two shifts add up to [2 d] along [n'], [p - 2 d * n'], for every face
    from which the midpoint of the segment was at least [d] away before the
    first call: [n.pt - n.p <= - d |n|], or [n.pt - n.p > d |n|] for a
    normal stored pointing inward. *)
Theorem C8_repeated_tightening_accumulates (d : EllipsoidDecomp) distance :
  distance > 0 → path_covers d →
  ∃ cs1 d1 cs2 d2,
    set_constraints distance d = Some (cs1, d1)
    ∧ set_constraints distance d1 = Some (cs2, d2)
    ∧ ∀ i j v a b,
        face_at (polyhedrons_ d) i j = Some v →
        path_ d !! (stride (is_path_circle_only_ d) * i)%nat = Some a →
        path_ d !! (stride (is_path_circle_only_ d) * i + 1)%nat = Some b →
        length (p_ v) = length (n_ v) →
        let pt := midpoint a b in
        let s := Vec.dot (n_ v) pt - Vec.dot (n_ v) (p_ v) in
        let n' := Vec.normalized (if Rgt_dec s 0 then Vec.neg (n_ v) else n_ v) in
        ∃ v1 v2,
          face_at (polyhedrons_ d1) i j = Some v1
          ∧ face_at (polyhedrons_ d2) i j = Some v2
          ∧ p_ v1 = Vec.sub (p_ v) (Vec.scale distance n')
          ∧ (Vec.squaredNorm (n_ v) > 0 → p_ v2 ≠ p_ v1)
          ∧ (s <= - (distance * Vec.norm (n_ v)) ∨ s > distance * Vec.norm (n_ v) →
             p_ v2 = Vec.sub (p_ v) (Vec.scale (2 * distance) n')).
Proof.
  intros Hd Hcov.
  destruct (set_constraints_pos d distance Hd Hcov)
    as (cs1 & d1 & E1 & Hpath & Hmode & Hcov1 & Hf1).
  destruct (set_constraints_pos d1 distance Hd Hcov1)
    as (cs2 & d2 & E2 & _ & _ & _ & Hf2).
  exists cs1, d1, cs2, d2. split; [done|]. split; [done|].
  intros i j v a b Hv Ha Hb Hp pt s n'.
  specialize (Hf1 i j). specialize (Hf2 i j).
  rewrite Hpath, Hmode in Hf2.
  rewrite (segment_midpoint_lookup _ _ _ _ _ Ha Hb) in Hf1, Hf2.
  fold pt in Hf1, Hf2.
  assert (tighten_normal pt v = n') as En by apply tighten_normal_unfold.
  assert (side pt v = s) as Es by apply side_eq.
  eexists _, _. split; [by rewrite Hf1, Hv|].
  split; [by rewrite Hf2, Hf1, Hv|]. split; [|split].
  - unfold tighten_hyperplane. cbn [p_]. by rewrite En.
  - intros Hpos.
    apply (tighten_anchor_moves pt distance (tighten_hyperplane pt distance v));
      [done|done|].
    change (n_ (tighten_hyperplane pt distance v)) with (n_ v).
    by apply length_tighten_anchor.
  - intros Hside. rewrite <- En. apply tighten_twice; [done| |done].
    by rewrite Es.
Qed.

End RepeatedTightening.

(** ** Tightening on the example corridor *)

Section CorridorFacts.

Local Open Scope R_scope.

Lemma norm_e1 : Vec.norm [1; 0] = 1.
Proof.
  unfold Vec.norm, Vec.squaredNorm, Vec.dot. cbn.
  replace (1 * 1 + (0 * 0 + 0)) with 1 by lra. apply sqrt_1.
Qed.

Lemma norm_neg_e1 : Vec.norm [-1; 0] = 1.
Proof.
  unfold Vec.norm, Vec.squaredNorm, Vec.dot. cbn.
  replace (-1 * -1 + (0 * 0 + 0)) with 1 by lra. apply sqrt_1.
Qed.

Lemma normalized_e1 : Vec.normalized [1; 0] = [1; 0].
Proof.
  unfold Vec.normalized. fold (Vec.norm [1; 0]). rewrite norm_e1.
  destruct (Rgt_dec _ _); [|done]. cbn. f_equal; [lra|f_equal; lra].
Qed.

Lemma normalized_neg_e1 : Vec.normalized (Vec.neg [1; 0]) = [-1; 0].
Proof.
  unfold Vec.normalized. fold (Vec.norm (Vec.neg [1; 0])).
  rewrite norm_neg, norm_e1.
  destruct (Rgt_dec _ _) as [|Hn]; cbn; [f_equal; [lra|f_equal; lra]|].
  exfalso. apply Hn. unfold Vec.squaredNorm, Vec.dot. cbn. lra.
Qed.

Lemma corridor_covers : path_covers Slab.corridor.
Proof. unfold path_covers. cbn. intros i Hi. lia. Qed.

Lemma corridor_inward_covers : path_covers Slab.corridor_inward.
Proof. unfold path_covers. cbn. intros i Hi. lia. Qed.

Lemma side_wall : side (midpoint [-1; 0] [1; 0]) Slab.wall = -1.
Proof. unfold side, Vec.dot. cbn. lra. Qed.

Lemma side_wall_inward : side (midpoint [-1; 0] [1; 0]) Slab.wall_inward = 1.
Proof. unfold side, Vec.dot. cbn. lra. Qed.

End CorridorFacts.

Section CorridorExamples.

Local Open Scope R_scope.

#[local] Existing Instances Slab.fitter Slab.recorder.

(** C6 fails as stated.  On the corridor, whose one face is one unit from
    the midpoint with the normal stored outward, a clearance of 2 carries the
    face past the midpoint: afterwards [n.pt - n.p'] is 1.  With the normal
    stored inward and a clearance of 1/2 the stored normal stays inward and
    [n.pt - n.p'] is 1/2. *)
Lemma C6_counterexample :
  let pt := midpoint [-1; 0] [1; 0] in
  (∃ cs d' v',
     set_constraints 2 Slab.corridor = Some (cs, d')
     ∧ face_at (polyhedrons_ d') 0 0 = Some v'
     ∧ ¬ (Vec.dot (n_ v') pt - Vec.dot (n_ v') (p_ v') < 0))
  ∧ (∃ cs d' v',
       set_constraints (1 / 2) Slab.corridor_inward = Some (cs, d')
       ∧ face_at (polyhedrons_ d') 0 0 = Some v'
       ∧ ¬ (Vec.dot (n_ v') pt - Vec.dot (n_ v') (p_ v') < 0)).
Proof.
  intros pt. split.
  - destruct (set_constraints_pos Slab.corridor 2)
      as (cs & d' & E & _ & _ & _ & Hf); [lra|apply corridor_covers|].
    exists cs, d', (tighten_hyperplane pt 2 Slab.wall).
    split; [done|]. split; [by rewrite Hf|].
    rewrite <- side_eq, side_tighten by done. unfold pt. rewrite side_wall.
    change (n_ Slab.wall) with [1; 0]. rewrite norm_e1.
    destruct (Rgt_dec _ _); lra.
  - destruct (set_constraints_pos Slab.corridor_inward (1 / 2))
      as (cs & d' & E & _ & _ & _ & Hf); [lra|apply corridor_inward_covers|].
    exists cs, d', (tighten_hyperplane pt (1 / 2) Slab.wall_inward).
    split; [done|]. split; [by rewrite Hf|].
    rewrite <- side_eq, side_tighten by done. unfold pt. rewrite side_wall_inward.
    change (n_ Slab.wall_inward) with [-1; 0]. rewrite norm_neg_e1.
    destruct (Rgt_dec _ _); lra.
Qed.

Lemma C6_witness :
  ∃ cs d' v',
    set_constraints (1 / 2) Slab.corridor = Some (cs, d')
    ∧ face_at (polyhedrons_ d') 0 0 = Some v'
    ∧ Vec.dot (n_ v') (midpoint [-1; 0] [1; 0])
      - Vec.dot (n_ v') (p_ v') < 0.
Proof.
  destruct (C6_sign_consistency_with_margin Slab.corridor (1 / 2))
    as (cs & d' & E & H); [lra|apply corridor_covers|].
  destruct (H 0%nat 0%nat Slab.wall [-1; 0] [1; 0]) as (v' & Hv' & _ & Hlt);
    try reflexivity.
  { rewrite <- side_eq, side_wall. change (n_ Slab.wall) with [1; 0].
    rewrite norm_e1. lra. }
  by exists cs, d', v'.
Defined.

(** C8 fails as stated.  On the corridor a clearance of 2 carries the face
    past the midpoint at the first call; the second call then sees the
    midpoint on the positive side, negates its local normal and carries the
    face back: after two calls the anchor is where it started, [(1, 0)], and
    not [2 * 2] lower along the outward normal [(1, 0)]. *)
Lemma C8_counterexample :
  ∃ cs1 d1 cs2 d2 v2,
    set_constraints 2 Slab.corridor = Some (cs1, d1)
    ∧ set_constraints 2 d1 = Some (cs2, d2)
    ∧ face_at (polyhedrons_ d2) 0 0 = Some v2
    ∧ p_ v2 = [1; 0]
    ∧ p_ v2 ≠ Vec.sub [1; 0] (Vec.scale (2 * 2) [1; 0]).
Proof.
  destruct (set_constraints_pos Slab.corridor 2)
    as (cs1 & d1 & E1 & Hpath & Hmode & Hcov1 & Hf1);
    [lra|apply corridor_covers|].
  destruct (set_constraints_pos d1 2) as (cs2 & d2 & E2 & _ & _ & _ & Hf2);
    [lra|done|].
  set (pt := midpoint [-1; 0] [1; 0]).
  set (v1 := tighten_hyperplane pt 2 Slab.wall).
  assert (face_at (polyhedrons_ d2) 0 0 = Some (tighten_hyperplane pt 2 v1)) as Hv2.
  { rewrite Hf2, Hf1, Hpath, Hmode. done. }
  assert (tighten_normal pt Slab.wall = [1; 0]) as En1.
  { rewrite tighten_normal_cases. unfold pt. rewrite side_wall.
    destruct (Rgt_dec _ _); [lra|apply normalized_e1]. }
  assert (tighten_normal pt v1 = [-1; 0]) as En2.
  { rewrite tighten_normal_cases. unfold v1. rewrite side_tighten by done.
    unfold pt. rewrite side_wall. change (n_ Slab.wall) with [1; 0].
    rewrite norm_e1. change (n_ (tighten_hyperplane _ _ _)) with [1; 0].
    destruct (Rgt_dec (-1) 0); [lra|].
    destruct (Rgt_dec _ _); [apply normalized_neg_e1|lra]. }
  assert (p_ (tighten_hyperplane pt 2 v1) = [1; 0]) as Ep.
  { unfold tighten_hyperplane at 1. cbn [p_]. rewrite En2.
    unfold v1, tighten_hyperplane. cbn [p_]. rewrite En1.
    cbn. f_equal; [lra|f_equal; lra]. }
  exists cs1, d1, cs2, d2, (tighten_hyperplane pt 2 v1).
  repeat split; try done.
  rewrite Ep. cbn. intros [= H]. lra.
Qed.

Lemma C8_witness :
  ∃ cs1 d1 cs2 d2 v2,
    set_constraints (1 / 2) Slab.corridor = Some (cs1, d1)
    ∧ set_constraints (1 / 2) d1 = Some (cs2, d2)
    ∧ face_at (polyhedrons_ d2) 0 0 = Some v2
    ∧ p_ v2 = Vec.sub [1; 0] (Vec.scale (2 * (1 / 2)) (Vec.normalized [1; 0])).
Proof.
  destruct (C8_repeated_tightening_accumulates Slab.corridor (1 / 2))
    as (cs1 & d1 & cs2 & d2 & E1 & E2 & H); [lra|apply corridor_covers|].
  destruct (H 0%nat 0%nat Slab.wall [-1; 0] [1; 0])
    as (v1 & v2 & _ & Hv2 & _ & _ & Hp); try reflexivity.
  exists cs1, d1, cs2, d2, v2. repeat split; try done.
  rewrite Hp.
  - rewrite <- side_eq, side_wall. by destruct (Rgt_dec (-1) 0); [lra|].
  - left. rewrite <- side_eq, side_wall. change (n_ Slab.wall) with [1; 0].
    rewrite norm_e1. lra.
Defined.

Lemma C5_witness :
  ∃ Vs',
    tighten_polyhedron 0 [0; 0] (1 / 2) Slab.corridor
    = Some (with_polyhedrons [Vs'] Slab.corridor)
    ∧ length (vs_ Vs') = 1%nat.
Proof.
  destruct (C5_tighten_polyhedron_step Slab.corridor 0 [0; 0] (1 / 2)
              (mkPolyhedron [Slab.wall]) eq_refl) as (Vs' & E & Hlen & _).
  by exists Vs'.
Defined.

Lemma C9_witness : ∃ cs, set_constraints 0 Slab.corridor = Some (cs, Slab.corridor).
Proof.
  destruct (C9_zero_clearance_leaves_polyhedrons Slab.corridor corridor_covers)
    as (cs & E & _).
  by exists cs.
Defined.

Lemma C10_witness :
  ∃ cs ps',
    set_constraints 3 Slab.corridor_inward
    = Some (cs, with_polyhedrons ps' Slab.corridor_inward)
    ∧ stored_normals ps' = [[[-1; 0]]].
Proof.
  destruct (C10_tightening_keeps_stored_normals Slab.corridor_inward) as [_ H].
  apply (H 3 corridor_inward_covers).
Defined.

End CorridorExamples.

(** ** Decomposition on example paths *)

Section DilateExamples.

Local Open Scope R_scope.

#[local] Existing Instances Slab.fitter Slab.recorder.

(** Every segment of a concrete path has its two ends. *)
Ltac covers :=
  let k := fresh "k" in
  let Hk := fresh "Hk" in
  intros k Hk; vm_compute in Hk; simpl; lia.

Lemma C1_witness :
  (∃ d', dilate Dim2 Slab.corner_path 0 false (EllipsoidDecomp_simple Dim2) = Some d'
         ∧ length (polyhedrons_ d') = 2%nat)
  ∧ (∃ d', dilate Dim2 Slab.corner_path 0 true (EllipsoidDecomp_simple Dim2) = Some d'
           ∧ length (polyhedrons_ d') = 1%nat).
Proof.
  destruct (C1_dilate_segments Dim2 Slab.corner_path 0 (EllipsoidDecomp_simple Dim2))
    as ((d1 & E1 & _ & _ & H1 & _) & (d2 & E2 & _ & _ & H2 & _) & _);
    [simpl; lia|simpl; lia|].
  split; [by exists d1|by exists d2].
Defined.

(** C4 fails as stated: a path of one point is not rejected.  [dilate]
    returns, after creating its four workers. *)
Lemma C4_counterexample :
  (∃ d', dilate Dim2 [[0; 0]] 0 false (EllipsoidDecomp_simple Dim2) = Some d')
  ∧ length (thread_ranges (n_segments_of (length [[0; 0]]) false)) = 4%nat.
Proof.
  split; [|done]. eexists. apply dilate_spec. covers.
Qed.

Lemma C4_witness :
  dilate Dim2 [[0; 0]] 0 true (EllipsoidDecomp_simple Dim2)
  = Some (mkEllipsoidDecomp [[0; 0]] true [] [] [] [] [0; 0] [0; 0] [0; 0]).
Proof.
  apply (C4_short_path_gives_empty_result Dim2 [[0; 0]] 0 true
           (EllipsoidDecomp_simple Dim2)).
  left. reflexivity.
Defined.

(** C2, the face of the three-dimensional box with normal [(0, -1, 0)].
    With the box from [(0, 0, 0)] to [(10, 10, 10)], [dilate] appends six
    faces to the two of the fitted polyhedron; the last one, with normal
    [(0, -1, 0)], is anchored at the [y] of the maximum corner, 10, and not
    at the [y] of the minimum corner, 0. *)
Theorem C2_bbox_3d_minus_y_anchored_at_max :
  ∃ d' Vs v,
    dilate Dim3 Slab.diagonal_path 0 false Slab.boxed3 = Some d'
    ∧ polyhedrons_ d' = [Vs]
    ∧ length (vs_ Vs) = (2 + 6)%nat
    ∧ vs_ Vs !! 7%nat = Some v
    ∧ n_ v = [0; -1; 0]
    ∧ Vec.coeff (p_ v) 1 = Vec.coeff (global_bbox_max_ Slab.boxed3) 1
    ∧ Vec.coeff (global_bbox_max_ Slab.boxed3) 1 = 10
    ∧ Vec.coeff (global_bbox_min_ Slab.boxed3) 1 = 0.
Proof.
  eexists _, _, _. split; [apply dilate_spec; covers|].
  cbn [polyhedrons_]. unfold fitted_lines.
  change (Z.to_nat (n_segments_of (length Slab.diagonal_path) false)) with 1%nat.
  cbn [seq fmap list_fmap]. rewrite global_bbox_set_boxed.
  - split; [done|]. rewrite add_global_bbox_3d.
    split; [done|]. split; [done|]. split; [done|]. split; [done|].
    cbn. split; lra.
  - apply global_bbox_set_max. unfold Vec.squaredNorm, Vec.dot. cbn. lra.
Qed.

(** C3, the interior points in paired mode.  On the path of two pairs
    [set_constraints] takes for the second polyhedron the midpoint of the
    second pair, [path[2]] and [path[3]]; [get_constraints] takes the
    midpoint of [path[1]] and [path[2]], two points of different pairs. *)
Theorem C3_get_constraints_paired_interior :
  ∃ d cs cs' d',
    dilate Dim2 Slab.pairs_path 0 true (EllipsoidDecomp_simple Dim2) = Some d
    ∧ get_constraints d = Some cs
    ∧ set_constraints 0 d = Some (cs', d')
    ∧ Slab.interior <$> cs = [midpoint [0; 0] [2; 0]; midpoint [2; 0] [10; 10]]
    ∧ Slab.interior <$> cs' = [midpoint [0; 0] [2; 0]; midpoint [10; 10] [10; 12]].
Proof.
  eexists _, _, _, _. split; [apply dilate_spec; covers|].
  unfold fitted_lines.
  change (Z.to_nat (n_segments_of (length Slab.pairs_path) true)) with 2%nat.
  cbn [seq fmap list_fmap].
  split; [apply get_constraints_spec; simpl; lia|].
  split; [apply set_constraints_spec; unfold path_covers; simpl; lia|].
  done.
Qed.

(** The corner path from [(0, 0)] over [(4, 0)] to [(4, 4)], sequential and
    without clearance: two constraints, their interior points the midpoints
    of the two segments, and the orchestrator is left as [dilate] made it. *)
Example corner_path_scenario :
  ∃ d cs,
    dilate Dim2 Slab.corner_path 0 false (EllipsoidDecomp_simple Dim2) = Some d
    ∧ length (ellipsoids_ d) = 2%nat ∧ length (polyhedrons_ d) = 2%nat
    ∧ set_constraints 0 d = Some (cs, d)
    ∧ Slab.interior <$> cs = [midpoint [0; 0] [4; 0]; midpoint [4; 0] [4; 4]].
Proof.
  assert (∀ k, (k < Z.to_nat (n_segments_of (length Slab.corner_path) false))%nat →
               (stride false * k + 1 < length Slab.corner_path)%nat) as Hcov
    by covers.
  destruct (dilate_segments Dim2 Slab.corner_path 0 false
              (EllipsoidDecomp_simple Dim2) _ eq_refl Hcov)
    as (d & E & Hpath & Hmode & _ & He & Hp & _).
  pose proof (dilate_path_covers _ _ _ _ _ _ Hcov E) as Hcovd.
  destruct (set_constraints_interior_points 0 d Hcovd) as (cs & d' & Ecs & Hlen & Hpt).
  pose proof (set_constraints_spec 0 d Hcovd) as Espec.
  exists d, cs. split; [done|]. split; [done|]. split; [done|].
  rewrite dilate_spec in E by done. injection E as <-.
  rewrite Espec in Ecs. injection Ecs as <- <-.
  split; [|done].
  rewrite Espec. do 2 f_equal.
  unfold tightened. cbn [with_polyhedrons polyhedrons_ path_ is_path_circle_only_].
  destruct (Rgt_dec 0 0); [lra|]. unfold fitted_lines.
  change (Z.to_nat (n_segments_of (length Slab.corner_path) false)) with 2%nat.
  done.
Qed.

End DilateExamples.

(** * Further properties *)

(** ** When [dilate] returns, and what it forgets *)

Section DilateDefined.

Context `{LS : LineSegmentOps} `{LC : LinearConstraintOps}.

(** Every path but the empty one in sequential mode has the two ends of
    every segment, whatever its length. *)
Lemma segments_in_path (path : list Vecf) circle k :
  path ≠ [] ∨ circle = true →
  k < Z.to_nat (n_segments_of (length path) circle) →
  stride circle * k + 1 < length path.
Proof.
  intros Hne. unfold n_segments_of, to_uint.
  assert (0 < length path ∨ circle = true) as Hpos.
  { destruct Hne as [Hne|Hc]; [left|by right]. destruct path; [done|simpl; lia]. }
  clear Hne. set (L := Z.of_nat (length path)).
  assert (0 ≤ L)%Z as HL by lia.
  pose proof (Z.mod_pos_bound L (2 ^ 32) ltac:(lia)) as Hm.
  pose proof (Z.mod_le L (2 ^ 32) HL ltac:(lia)) as Hle.
  pose proof (Z_div_mod_eq_full L (2 ^ 32)) as Hdm.
  set (m := (L `mod` 2 ^ 32)%Z) in *.
  destruct circle; cbn [stride].
  - intros Hk.
    pose proof (Z.mul_div_le m 2 ltac:(lia)).
    assert (0 ≤ m `div` 2)%Z by (apply Z.div_pos; lia). lia.
  - destruct Hpos as [Hpos|?]; [|done]. intros Hk.
    destruct (decide (m = 0%Z)) as [Hz|Hnz].
    + rewrite Hz in Hk. change ((0 - 1) `mod` 2 ^ 32)%Z with 4294967295%Z in Hk.
      assert (0 < L `div` 2 ^ 32)%Z.
      { destruct (decide (0 < L `div` 2 ^ 32)%Z); [done|].
        assert (L `div` 2 ^ 32 ≤ 0)%Z by lia.
        assert (0 ≤ L `div` 2 ^ 32)%Z by (apply Z.div_pos; lia). lia. }
      lia.
    + rewrite Z.mod_small in Hk by lia. lia.
Qed.

Lemma empty_sequential_or_segments (path : list Vecf) circle :
  (path = [] ∧ circle = false) ∨ (path ≠ [] ∨ circle = true).
Proof. destruct path, circle; auto. Qed.

(** X1 ([dilate] and the empty path).  [dilate] reads out of bounds for the
    empty path in sequential mode, where [n_path - 1] wraps around, and for
    no other input: in paired mode, and for every path of at least one point
    in sequential mode, it returns. *)
Theorem X1_dilate_undefined_only_for_empty_sequential
    D path offset_x circle (d : EllipsoidDecomp) :
  dilate D path offset_x circle d = None ↔ path = [] ∧ circle = false.
Proof.
  split.
  - intros Hnone.
    destruct (empty_sequential_or_segments path circle) as [|Hok]; [done|].
    by rewrite dilate_spec in Hnone by (intros k; by apply segments_in_path).
  - intros [-> ->]. apply dilate_empty_sequential.
Qed.

(** X2 ([dilate] replaces prior results).  What [dilate] returns depends on
    the orchestrator only through its obstacles, its local box and its
    global box: the earlier path and mode, and the earlier lines, ellipsoids
    and polyhedrons, tightened or not, leave no trace. *)
Theorem X2_dilate_forgets_prior_results D path offset_x circle (d d' : EllipsoidDecomp) :
  same_setup d d' →
  dilate D path offset_x circle d = dilate D path offset_x circle d'.
Proof.
  intros (Hobs & Hloc & Hmin & Hmax).
  destruct (empty_sequential_or_segments path circle) as [[-> ->]|Hok].
  - by rewrite !(proj2 (dilate_empty_sequential _ _ _)).
  - rewrite !dilate_spec by (intros k; by apply segments_in_path).
    unfold fitted_lines, fitted_line, boxed.
    by rewrite Hobs, Hloc, Hmin, Hmax.
Qed.

(** X3 (decomposing again undoes tightening).  After [dilate] has returned,
    any call of [set_constraints], with any clearance, returns, and
    [dilate] on the same path then gives back the decomposition as it was
    before that call. *)
Theorem X3_dilate_again_undoes_tightening
    D path offset_x circle (d d1 : EllipsoidDecomp) distance :
  dilate D path offset_x circle d = Some d1 →
  ∃ cs d2,
    set_constraints distance d1 = Some (cs, d2)
    ∧ dilate D path offset_x circle d2 = Some d1.
Proof.
  intros E.
  destruct (empty_sequential_or_segments path circle) as [[-> ->]|Hok];
    [by rewrite (proj2 (dilate_empty_sequential _ _ _)) in E|].
  assert (∀ k, k < Z.to_nat (n_segments_of (length path) circle) →
               stride circle * k + 1 < length path) as Hcov
    by (intros k; by apply segments_in_path).
  pose proof (dilate_path_covers _ _ _ _ _ _ Hcov E) as Hcov1.
  rewrite (set_constraints_spec distance d1 Hcov1). eexists _, _. split; [done|].
  rewrite dilate_spec in E by done. injection E as <-.
  by rewrite dilate_spec by done.
Qed.

End DilateDefined.

(** ** The global bounding box: when it counts, what it encloses *)

Section BboxFacts.

Context `{LS : LineSegmentOps}.

Local Open Scope R_scope.







(** X6 (the four faces enclose the box).  In two dimensions a point passes
    the side test of every face of a polyhedron with the box faces added
    exactly when it passed it for every face before and lies in the box,
    between the corners in both coordinates. *)
Theorem X6_bbox_2d_encloses_box bbox_min bbox_max Vs x0 x1 :
  within [x0; x1] (add_global_bbox Dim2 bbox_min bbox_max Vs)
  ↔ within [x0; x1] Vs
    ∧ Vec.coeff bbox_min 0 <= x0 <= Vec.coeff bbox_max 0
    ∧ Vec.coeff bbox_min 1 <= x1 <= Vec.coeff bbox_max 1.
Proof.
  unfold within. rewrite add_global_bbox_2d. split.
  - intros H. apply Forall_app in H as [HVs H].
    do 4 (apply Forall_cons_1 in H as [? H]).
    unfold side, Vec.dot in *. cbn in *. split; [done|]. lra.
  - intros (HVs & H0 & H1). apply Forall_app. split; [done|].
    repeat (apply Forall_cons_2; [unfold side, Vec.dot; cbn; lra|]).
    apply Forall_nil_2.
Qed.

(** X7 (the six faces in three dimensions).  In three dimensions a point
    passes the side test of every face of a polyhedron with the box faces
    added exactly when it passed it for every face before, lies between the
    corners in [x] and in [z], and has the [y] of the maximum corner: the
    two faces across [y] are both anchored there. *)
Theorem X7_bbox_3d_encloses_slice bbox_min bbox_max Vs x0 x1 x2 :
  within [x0; x1; x2] (add_global_bbox Dim3 bbox_min bbox_max Vs)
  ↔ within [x0; x1; x2] Vs
    ∧ Vec.coeff bbox_min 0 <= x0 <= Vec.coeff bbox_max 0
    ∧ x1 = Vec.coeff bbox_max 1
    ∧ Vec.coeff bbox_min 2 <= x2 <= Vec.coeff bbox_max 2.
Proof.
  unfold within. rewrite add_global_bbox_3d. split.
  - intros H. apply Forall_app in H as [HVs H].
    do 6 (apply Forall_cons_1 in H as [? H]).
    unfold side, Vec.dot in *. cbn in *. split; [done|]. lra.
  - intros (HVs & H0 & H1 & H2). apply Forall_app. split; [done|].
    repeat (apply Forall_cons_2; [unfold side, Vec.dot; cbn; lra|]).
    apply Forall_nil_2.
Qed.

End BboxFacts.

Section BboxDilate.

Context `{LS : LineSegmentOps}.

Local Open Scope R_scope.


End BboxDilate.

(** ** The workers: how much each gets, what each touches *)

Section Workers.

Context `{LS : LineSegmentOps}.

Lemma range_length a b : length (range a b) = b - a.
Proof. unfold range. apply length_seq. Qed.

(** X9 (the load of the four workers).  For every 32-bit [n_segments] the
    first three workers visit [n_segments / 4] indices each (rounded down)
    and the fourth visits the rest, [n_segments / 4] plus the remainder of
    the division: at most three more than each of the others, and all of
    them when there are fewer than four segments. *)
Theorem X9_worker_block_sizes n_segments :
  (0 ≤ n_segments < 2 ^ 32)%Z →
  Z.of_nat ∘ length <$> (thread_indices <$> thread_ranges n_segments)
  = [n_segments / 4; n_segments / 4; n_segments / 4;
     n_segments / 4 + n_segments `mod` 4]%Z
  ∧ (0 ≤ n_segments `mod` 4 ≤ 3)%Z.
Proof.
  intros Hn.
  pose proof (thread_ranges_blocks n_segments Hn) as Hb. cbv zeta in Hb.
  destruct (size_section_bounds n_segments Hn) as (_ & H0 & H4).
  pose proof (Z_div_mod_eq_full n_segments 4) as Hdm.
  pose proof (Z.mod_pos_bound n_segments 4 ltac:(lia)) as Hm.
  split; [|lia].
  set (s := (n_segments / 4)%Z) in *.
  destruct (thread_ranges n_segments) as [|r0 [|r1 [|r2 [|r3 [|]]]]]; try done.
  injection Hb as E01 E02 E11 E12 E21 E22 E31 E32.
  cbn [fmap list_fmap compose]. unfold thread_indices.
  rewrite !range_length, E01, E02, E11, E12, E21, E22, E31, E32.
  repeat f_equal; lia.
Qed.

(** The loop of [threadingFunction] on a block of lines, the lines before
    the block in [seen] and those after it in [rest]. *)
Lemma dilate_one_block offset_x (seen : list (option LineSegment))
    (block : list LineSegment) (rest : list (option LineSegment)) :
  for_each (dilate_one offset_x) (seq (length seen) (length block))
    (seen ++ (Some <$> block) ++ rest)
  = Some (seen
          ++ ((λ l, Some (dilate_line offset_x (set_obs_line l))) <$> block)
          ++ rest).
Proof.
  revert seen. induction block as [|l block IH]; intros seen; [done|].
  cbn [length seq for_each]. rewrite fmap_cons. cbn [app].
  rewrite dilate_one_step. cbn [mbind option_bind].
  replace (S (length seen))
    with (length (seen ++ [Some (dilate_line offset_x (set_obs_line l))]))
    by (rewrite length_app; simpl; lia).
  by rewrite IH, fmap_cons, <- app_assoc.
Qed.

(** X10 (what a worker touches).  [threadingFunction(start, end, offset_x)]
    with [0 <= start <= end <= lines_.size()] on lines none of which is
    null returns; every line of the block [start, end) has had
    [set_obs()] and then [dilate(offset_x)] applied once, and every line
    outside the block is the one it was. *)
Theorem X10_threadingFunction_touches_its_block
    (start end_ : Z) offset_x (ls : list LineSegment) :
  (0 ≤ start ≤ end_)%Z → (end_ ≤ Z.of_nat (length ls))%Z → (end_ < 2 ^ 31)%Z →
  ∃ ls',
    threadingFunction start end_ offset_x (Some <$> ls) = Some (Some <$> ls')
    ∧ length ls' = length ls
    ∧ ∀ i l, ls !! i = Some l →
        ls' !! i
        = Some (if decide (start ≤ Z.of_nat i < end_)%Z
                then dilate_line offset_x (set_obs_line l) else l).
Proof.
  intros Hse Hlen H31.
  set (s := Z.to_nat start). set (e := Z.to_nat end_).
  set (f := λ l, dilate_line offset_x (set_obs_line l)).
  exists (take s ls ++ (f <$> take (e - s) (drop s ls)) ++ drop e ls).
  assert (s ≤ e ∧ e ≤ length ls) as [Hs He] by (unfold s, e; lia).
  split; [|split].
  - unfold threadingFunction, thread_indices, range. cbn [fst snd].
    rewrite !to_uint_small by lia. fold s e.
    pose proof (dilate_one_block offset_x (Some <$> take s ls)
                  (take (e - s) (drop s ls)) (Some <$> drop e ls)) as Hblock.
    rewrite length_fmap, !length_take, length_drop in Hblock.
    replace (s `min` length ls) with s in Hblock by lia.
    replace ((e - s) `min` (length ls - s)) with (e - s) in Hblock by lia.
    rewrite <- !fmap_app in Hblock.
    assert (take s ls ++ take (e - s) (drop s ls) ++ drop e ls = ls) as Hsplit.
    { rewrite <- (take_drop s ls) at 4. f_equal.
      rewrite <- (take_drop (e - s) (drop s ls)) at 2. f_equal.
      rewrite drop_drop. f_equal. lia. }
    rewrite Hsplit in Hblock. rewrite Hblock. f_equal.
    rewrite !fmap_app, <- !list_fmap_compose. done.
  - rewrite !length_app, length_fmap, !length_take, !length_drop. lia.
  - intros i l Hi. pose proof (lookup_lt_Some _ _ _ Hi) as Hlt.
    destruct (decide (start ≤ Z.of_nat i < end_)%Z) as [Hin|Hout].
    + rewrite lookup_app_r by (rewrite length_take; lia).
      rewrite length_take. replace (s `min` length ls) with s by lia.
      rewrite lookup_app_l by (rewrite length_fmap, length_take, length_drop; lia).
      rewrite list_lookup_fmap, lookup_take_lt by lia.
      rewrite lookup_drop. replace (s + (i - s)) with i by lia. by rewrite Hi.
    + destruct (decide (i < s)) as [Hlo|Hhi].
      * rewrite lookup_app_l by (rewrite length_take; lia).
        by rewrite lookup_take_lt.
      * assert (e ≤ i) by (unfold s, e in *; lia).
        rewrite lookup_app_r by (rewrite length_take; lia).
        rewrite length_take. replace (s `min` length ls) with s by lia.
        rewrite lookup_app_r
          by (rewrite length_fmap, length_take, length_drop; lia).
        rewrite length_fmap, length_take, length_drop.
        replace ((e - s) `min` (length ls - s)) with (e - s) by lia.
        rewrite lookup_drop. replace (e + (i - s - (e - s))) with i by lia. done.
Qed.

End Workers.

(** ** Constraint extraction: when it returns, what it is built from *)

Section ExtractionDefined.

Context `{LS : LineSegmentOps} `{LC : LinearConstraintOps}.

Local Open Scope R_scope.

Lemma set_constraints_round_None path circle distance i cs (ps : list Polyhedron) idx :
  (length path ≤ idx + 1)%nat →
  set_constraints_round path circle distance i (cs, ps, idx) = None.
Proof.
  intros Hlen. unfold set_constraints_round.
  destruct (path !! idx) as [a|]; [|done]. cbn [mbind option_bind].
  by rewrite (lookup_ge_None_2 path (idx + 1)) by lia.
Qed.

(** A polyhedron without its path elements stops the loop. *)
Lemma set_constraints_loop_None path circle distance cs (seen todo : list Polyhedron) :
  (∃ k, k < length todo ∧ length path ≤ stride circle * (length seen + k) + 1)%nat →
  for_each (set_constraints_round path circle distance)
    (seq (length seen) (length todo))
    (cs, seen ++ todo, stride circle * length seen)%nat
  = None.
Proof.
  revert seen cs. induction todo as [|Vs todo IH]; intros seen cs (k & Hk & Hlen).
  - simpl in Hk. lia.
  - cbn [length seq for_each].
    destruct (decide (stride circle * length seen + 1 < length path)%nat) as [Hin|Hout].
    + rewrite set_constraints_round_step by done. cbn [mbind option_bind].
      replace (S (length seen))
        with (length (seen ++ [tightened path circle distance (length seen) Vs]))
        by (rewrite length_app; simpl; lia).
      apply IH. destruct k as [|k]; [rewrite Nat.add_0_r in Hlen; lia|].
      exists k. rewrite length_app. cbn [length] in *. split; [lia|].
      replace (length seen + 1 + k)%nat with (length seen + S k)%nat by lia. done.
    + by rewrite set_constraints_round_None by lia.
Qed.

(** X11 (when [set_constraints] is defined).  [set_constraints], with any
    clearance, returns exactly when every polyhedron has the two path
    elements of its segment, [path_[2i]] and [path_[2i+1]] in paired mode,
    [path_[i]] and [path_[i+1]] otherwise; if one is missing the loop reads
    the path out of bounds.  In particular it returns the empty list on an
    orchestrator that holds no polyhedron. *)
Theorem X11_set_constraints_defined_iff_path_covers distance (d : EllipsoidDecomp) :
  (is_Some (set_constraints distance d) ↔ path_covers d)
  ∧ (polyhedrons_ d = [] → set_constraints distance d = Some ([], d)).
Proof.
  split; [split|].
  - intros [r Hr]. intros i Hi.
    destruct (decide (stride (is_path_circle_only_ d) * i + 1 < length (path_ d))%nat)
      as [|Hout]; [done|exfalso].
    unfold set_constraints, range in Hr. rewrite Nat.sub_0_r in Hr.
    pose proof (set_constraints_loop_None (path_ d) (is_path_circle_only_ d)
                  distance [] [] (polyhedrons_ d)) as Hnone.
    cbn [length app] in Hnone. rewrite Nat.mul_0_r in Hnone.
    rewrite Hnone in Hr; [done|]. exists i. split; [done|]. simpl. lia.
  - intros Hcov. rewrite set_constraints_spec by done. by eexists.
  - intros Hnil. unfold set_constraints. rewrite Hnil. cbn.
    rewrite <- Hnil. by rewrite with_polyhedrons_id.
Qed.

(** X12 ([dilate], then constraints).  After [dilate] has returned,
    [set_constraints] with any clearance returns one constraint for each
    segment, in path order; the constraint of segment [i] is built from the
    midpoint of the two ends of that segment, in both modes, from the
    hyperplanes of polyhedron [i] as [dilate] stored them, before this call
    tightens them, and from the clearance.  What it leaves can be extracted
    from again. *)
Theorem X12_set_constraints_after_dilate
    D path offset_x circle (d d' : EllipsoidDecomp) distance :
  dilate D path offset_x circle d = Some d' →
  ∃ cs d'',
    set_constraints distance d' = Some (cs, d'')
    ∧ length cs = Z.to_nat (n_segments_of (length path) circle)
    ∧ path_covers d''
    ∧ ∀ i c, cs !! i = Some c →
        ∃ a b,
          path !! (stride circle * i)%nat = Some a
          ∧ path !! (stride circle * i + 1)%nat = Some b
          ∧ c = LinearConstraint_new_dist (midpoint a b)
                  (vs_ (boxed D d (get_polyhedron (fitted_line d offset_x a b))))
                  distance.
Proof.
  intros E.
  destruct (empty_sequential_or_segments path circle) as [[-> ->]|Hok];
    [by rewrite (proj2 (dilate_empty_sequential _ _ _)) in E|].
  assert (∀ k, (k < Z.to_nat (n_segments_of (length path) circle))%nat →
               (stride circle * k + 1 < length path)%nat) as Hcov
    by (intros k; by apply segments_in_path).
  destruct (dilate_segments D path offset_x circle d _ eq_refl Hcov)
    as (d0 & E0 & Hpath & Hmode & _ & _ & Hlen & Hseg).
  rewrite E in E0. injection E0 as <-.
  pose proof (dilate_path_covers _ _ _ _ _ _ Hcov E) as Hcov'.
  destruct (set_constraints_interior_points distance d' Hcov')
    as (cs & d'' & Ecs & Hlencs & Hpt).
  exists cs, d''. split; [done|]. split; [by rewrite Hlencs, Hlen|]. split.
  - rewrite set_constraints_spec in Ecs by done. injection Ecs as _ <-.
    unfold path_covers, with_polyhedrons.
    cbn [path_ is_path_circle_only_ polyhedrons_].
    intros i Hi. rewrite length_imap in Hi. by apply Hcov'.
  - intros i c Hc. pose proof (lookup_lt_Some _ _ _ Hc) as Hi.
    rewrite Hlencs, Hlen in Hi.
    destruct (Hseg i Hi) as (a & b & Ha & Hb & _ & _ & Hp).
    destruct (Hpt i _ Hp) as (a' & b' & Ha' & Hb' & Hc').
    rewrite Hpath, Hmode in Ha', Hb'.
    rewrite Ha in Ha'. rewrite Hb in Hb'. injection Ha' as <-. injection Hb' as <-.
    rewrite Hc in Hc'. injection Hc' as ->. by exists a, b.
Qed.

(** X13 ([dilate], then [get_constraints]).  After [dilate] has returned, in
    either mode, [get_constraints] returns one constraint for each polyhedron;
    the one at index [i] is built from the midpoint of [path[i]] and
    [path[i+1]] and from the hyperplanes of polyhedron [i]: in sequential
    mode the interior point [set_constraints] uses. *)
Theorem X13_get_constraints_after_dilate
    D path offset_x circle (d d' : EllipsoidDecomp) :
  dilate D path offset_x circle d = Some d' →
  ∃ cs,
    get_constraints d' = Some cs
    ∧ length cs = length (polyhedrons_ d')
    ∧ (∀ i Vs, polyhedrons_ d' !! i = Some Vs →
         ∃ a b, path !! i = Some a ∧ path !! (i + 1)%nat = Some b
                ∧ cs !! i = Some (LinearConstraint_new (midpoint a b) (vs_ Vs)))
    ∧ (circle = false →
       ∃ cs' d'', set_constraints 0 d' = Some (cs', d'')
                  ∧ ∀ i Vs, polyhedrons_ d' !! i = Some Vs →
                      ∃ pt, cs !! i = Some (LinearConstraint_new pt (vs_ Vs))
                            ∧ cs' !! i
                              = Some (LinearConstraint_new_dist pt (vs_ Vs) 0)).
Proof.
  intros E.
  destruct (empty_sequential_or_segments path circle) as [[-> ->]|Hok];
    [by rewrite (proj2 (dilate_empty_sequential _ _ _)) in E|].
  assert (∀ k, (k < Z.to_nat (n_segments_of (length path) circle))%nat →
               (stride circle * k + 1 < length path)%nat) as Hcov
    by (intros k; by apply segments_in_path).
  pose proof (dilate_path_covers _ _ _ _ _ _ Hcov E) as Hcov'.
  assert (path_ d' = path ∧ is_path_circle_only_ d' = circle) as [Hpath Hmode].
  { rewrite dilate_spec in E by done. by injection E as <-. }
  destruct (get_constraints_interior_points d' Hcov') as (cs & Ecs & Hlen & Hpt).
  rewrite Hpath in Hpt.
  exists cs. do 3 (split; [done|]).
  intros ->.
  destruct (set_constraints_interior_points 0 d' Hcov') as (cs' & d'' & Ecs' & _ & Hpt').
  rewrite Hpath, Hmode in Hpt'. cbn [stride] in Hpt'.
  exists cs', d''. split; [done|]. intros i Vs Hi.
  destruct (Hpt i Vs Hi) as (a & b & Ha & Hb & Hc).
  destruct (Hpt' i Vs Hi) as (a' & b' & Ha' & Hb' & Hc').
  rewrite Nat.mul_1_l in Ha', Hb'.
  rewrite Ha in Ha'. rewrite Hb in Hb'. injection Ha' as <-. injection Hb' as <-.
  by exists (midpoint a b).
Qed.

(** X14 (a clearance that is not positive).  With a clearance of zero or
    below, [set_constraints] returns and leaves the orchestrator exactly as
    it was: a negative clearance is handed to the constraints but does not
    move any face outward. *)
Theorem X14_nonpositive_clearance_moves_nothing distance (d : EllipsoidDecomp) :
  distance <= 0 → path_covers d →
  ∃ cs, set_constraints distance d = Some (cs, d)
        ∧ length cs = length (polyhedrons_ d)
        ∧ ∀ i Vs, polyhedrons_ d !! i = Some Vs →
            ∃ pt, cs !! i = Some (LinearConstraint_new_dist pt (vs_ Vs) distance).
Proof.
  intros Hd Hcov. rewrite (set_constraints_spec distance d Hcov).
  assert (imap (tightened (path_ d) (is_path_circle_only_ d) distance) (polyhedrons_ d)
          = polyhedrons_ d) as ->.
  { transitivity (imap (const (@Datatypes.id Polyhedron)) (polyhedrons_ d));
      [|by rewrite imap_const, list_fmap_id].
    apply imap_ext. intros i Vs _.
    unfold tightened. destruct (Rgt_dec distance 0); [lra|done]. }
  rewrite with_polyhedrons_id. eexists. split; [done|].
  split; [by rewrite length_imap|].
  intros i Vs Hi. eexists. by rewrite list_lookup_imap, Hi.
Qed.

End ExtractionDefined.

(** ** Tightening: how calls add up, what the tightened region keeps *)

Section TighteningAlgebra.

Context `{LS : LineSegmentOps} `{LC : LinearConstraintOps}.

Local Open Scope R_scope.



(** The side test of any point after one tightening step. *)
Lemma side_tighten_at pt distance v x :
  length (p_ v) = length (n_ v) →
  side x (tighten_hyperplane pt distance v)
  = if Rgt_dec (side pt v) 0
    then side x v - distance * Vec.norm (n_ v)
    else side x v + distance * Vec.norm (n_ v).
Proof.
  intros Hp. unfold side at 1, tighten_hyperplane. cbn [p_ n_].
  rewrite (dot_comm (Vec.sub _ _)), dot_sub_r;
    [|done|by rewrite length_scale, length_tighten_normal].
  rewrite dot_scale_r, dot_tighten_normal. unfold side.
  rewrite (dot_comm (p_ v)). destruct (Rgt_dec _ _); lra.
Qed.









(** X17 (the tightened polyhedron keeps the clearance).  [set_constraints]
    with a clearance [d > 0] on a decomposition whose polyhedrons have their
    path elements returns; take a polyhedron all of whose stored normals
    point away from the midpoint of its segment.  Every point that passes the
    side test of all its tightened faces passed the test of each face before
    the call with a margin of the clearance, [n.x - n.p <= - d |n|]: the
    tightened polyhedron lies inside the old one, at least [d] from each of
    its faces. *)
Theorem X17_tightened_region_keeps_clearance (d : EllipsoidDecomp) distance :
  distance > 0 → path_covers d →
  ∃ cs d',
    set_constraints distance d = Some (cs, d')
    ∧ ∀ i Vs a b,
        polyhedrons_ d !! i = Some Vs →
        path_ d !! (stride (is_path_circle_only_ d) * i)%nat = Some a →
        path_ d !! (stride (is_path_circle_only_ d) * i + 1)%nat = Some b →
        Forall (λ v, length (p_ v) = length (n_ v)) (vs_ Vs) →
        within (midpoint a b) Vs →
        ∃ Vs', polyhedrons_ d' !! i = Some Vs'
               ∧ ∀ x, within x Vs' →
                   Forall (λ v, side x v <= - (distance * Vec.norm (n_ v))) (vs_ Vs)
                   ∧ within x Vs.
Proof.
  intros Hd Hcov. eexists _, _. split; [by apply set_constraints_spec|].
  cbn [with_polyhedrons polyhedrons_].
  intros i Vs a b Hi Ha Hb Hdim Hin.
  rewrite list_lookup_imap, Hi. cbn [fmap option_fmap option_map].
  unfold tightened. destruct (Rgt_dec distance 0); [|done].
  rewrite (segment_midpoint_lookup _ _ _ _ _ Ha Hb).
  eexists. split; [done|]. intros x Hx.
  unfold within, tighten_faces in *. cbn [vs_] in Hx.
  rewrite Forall_fmap in Hx.
  assert (Forall (λ v, side x v <= - (distance * Vec.norm (n_ v))) (vs_ Vs)) as Hmargin.
  { apply Forall_forall. intros v Hv.
    pose proof (proj1 (Forall_forall _ _) Hx v Hv) as Hxv. cbn in Hxv.
    pose proof (proj1 (Forall_forall _ _) Hin v Hv) as Hptv. cbn in Hptv.
    pose proof (proj1 (Forall_forall _ _) Hdim v Hv) as Hp. cbn in Hp.
    rewrite side_tighten_at in Hxv by done.
    destruct (Rgt_dec (side (midpoint a b) v) 0); lra. }
  split; [done|].
  eapply Forall_impl; [|exact Hmargin]. intros v Hv. cbn in *.
  pose proof (norm_nonneg (n_ v)). nra.
Qed.

End TighteningAlgebra.

(** ** The further properties on the examples *)

Section FurtherExamples.

Local Open Scope R_scope.

#[local] Existing Instances Slab.fitter Slab.recorder.

Lemma corner_path_dilated :
  ∃ d1, dilate Dim2 Slab.corner_path 0 false (EllipsoidDecomp_simple Dim2) = Some d1.
Proof.
  eexists. apply dilate_spec. intros k Hk. vm_compute in Hk. simpl. lia.
Qed.

Lemma pairs_path_dilated :
  ∃ d1, dilate Dim2 Slab.pairs_path 0 true (EllipsoidDecomp_simple Dim2) = Some d1.
Proof.
  eexists. apply dilate_spec. intros k Hk. vm_compute in Hk. simpl. lia.
Qed.


Lemma X2_witness :
  dilate Dim2 Slab.corner_path 0 false Slab.corridor
  = dilate Dim2 Slab.corner_path 0 false (EllipsoidDecomp_simple Dim2).
Proof.
  apply (X2_dilate_forgets_prior_results Dim2 Slab.corner_path 0 false
           Slab.corridor (EllipsoidDecomp_simple Dim2)).
  repeat split; reflexivity.
Defined.

Lemma X3_witness :
  ∃ d1 cs d2,
    dilate Dim2 Slab.corner_path 0 false (EllipsoidDecomp_simple Dim2) = Some d1
    ∧ set_constraints 1 d1 = Some (cs, d2)
    ∧ dilate Dim2 Slab.corner_path 0 false d2 = Some d1.
Proof.
  destruct corner_path_dilated as [d1 E].
  destruct (X3_dilate_again_undoes_tightening Dim2 Slab.corner_path 0 false
              (EllipsoidDecomp_simple Dim2) d1 1 E) as (cs & d2 & E1 & E2).
  by exists d1, cs, d2.
Defined.




Lemma X9_witness :
  Z.of_nat ∘ length <$> (thread_indices <$> thread_ranges 9) = [2; 2; 2; 3]%Z.
Proof.
  apply (X9_worker_block_sizes 9). lia.
Defined.

Lemma X10_witness :
  ∃ ls',
    threadingFunction 1 2 0
      (Some <$> [LineSegment_new [0; 0] [1; 0]; LineSegment_new [1; 0] [2; 0];
                 LineSegment_new [2; 0] [3; 0]])
    = Some (Some <$> ls')
    ∧ length ls' = 3%nat.
Proof.
  destruct (X10_threadingFunction_touches_its_block 1 2 0
              [LineSegment_new [0; 0] [1; 0]; LineSegment_new [1; 0] [2; 0];
               LineSegment_new [2; 0] [3; 0]])
    as (ls' & E & Hlen & _); [lia|simpl; lia|lia|].
  by exists ls'.
Defined.

Lemma X11_witness :
  set_constraints 1 (EllipsoidDecomp_simple Dim2)
  = Some ([], EllipsoidDecomp_simple Dim2).
Proof.
  apply (X11_set_constraints_defined_iff_path_covers 1 (EllipsoidDecomp_simple Dim2)).
  reflexivity.
Defined.

Lemma X12_witness :
  ∃ d' cs d'',
    dilate Dim2 Slab.pairs_path 0 true (EllipsoidDecomp_simple Dim2) = Some d'
    ∧ set_constraints 1 d' = Some (cs, d'')
    ∧ length cs = 2%nat.
Proof.
  destruct pairs_path_dilated as [d' E].
  destruct (X12_set_constraints_after_dilate Dim2 Slab.pairs_path 0 true
              (EllipsoidDecomp_simple Dim2) d' 1 E) as (cs & d'' & E1 & Hlen & _).
  by exists d', cs, d''.
Defined.

Lemma X13_witness :
  ∃ d' cs,
    dilate Dim2 Slab.corner_path 0 false (EllipsoidDecomp_simple Dim2) = Some d'
    ∧ get_constraints d' = Some cs
    ∧ length cs = length (polyhedrons_ d').
Proof.
  destruct corner_path_dilated as [d' E].
  destruct (X13_get_constraints_after_dilate Dim2 Slab.corner_path 0 false
              (EllipsoidDecomp_simple Dim2) d' E) as (cs & E1 & Hlen & _).
  by exists d', cs.
Defined.

Lemma X14_witness :
  ∃ cs, set_constraints (-1) Slab.corridor = Some (cs, Slab.corridor).
Proof.
  destruct (X14_nonpositive_clearance_moves_nothing (-1) Slab.corridor)
    as (cs & E & _); [lra|apply corridor_covers|].
  by exists cs.
Defined.



Lemma X17_witness :
  ∃ cs d' Vs',
    set_constraints (1 / 2) Slab.corridor = Some (cs, d')
    ∧ polyhedrons_ d' !! 0%nat = Some Vs'
    ∧ ∀ x, within x Vs' → within x (mkPolyhedron [Slab.wall]).
Proof.
  destruct (X17_tightened_region_keeps_clearance Slab.corridor (1 / 2))
    as (cs & d' & E & H); [lra|apply corridor_covers|].
  destruct (H 0%nat (mkPolyhedron [Slab.wall]) [-1; 0] [1; 0])
    as (Vs' & HVs' & Hin); try reflexivity.
  - apply Forall_cons_2; [reflexivity|apply Forall_nil_2].
  - apply Forall_cons_2; [rewrite side_wall; lra|apply Forall_nil_2].
  - exists cs, d', Vs'. split; [done|]. split; [done|].
    intros x Hx. apply (Hin x Hx).
Defined.

End FurtherExamples.
